(** * Greedy vaccination-center placement (pbl.py)

    A shallow embedding of the computational part of [pbl.py]: the
    networkx graph the script builds, the helper [covered_nodes], the
    greedy loop [greedy_center_placement], and the body of the
    "Compute Centers" button (coverage map, statistics, exception
    handler).  Python sets are [gset Z], dictionaries are [gmap] or
    insertion-ordered association lists where the iteration order is
    observable, and Python exceptions are an error monad. *)

From Stdlib Require Import ZArith QArith Lia Lqa.
From stdpp Require Import gmap sets list fin_sets sorting strings.

Open Scope Z_scope.

(** ** Exceptions and results *)

Module Py.

(** The exceptions the modelled code can raise. *)
Inductive exn : Set :=
| NodeNotFound        (* networkx: source is not in G *)
| KeyError            (* missing dictionary key *)
| IndexError          (* list index out of range *)
| ZeroDivisionError.  (* int / 0 *)

(** The outcome of running a piece of code with a bounded number of
    [while] iterations: a value, a raised exception, or the iteration
    budget exhausted with the loop still running. *)
Inductive res (A : Type) : Type :=
| Ok (a : A)
| Raise (e : exn)
| OutOfFuel.
Global Arguments Ok {A} a.
Global Arguments Raise {A} e.
Global Arguments OutOfFuel {A}.

Definition bind {A B} (m : res A) (k : A → res B) : res B :=
  match m with
  | Ok a => k a
  | Raise e => Raise e
  | OutOfFuel => OutOfFuel
  end.

(** [for x in l: st = body st x], stopping at the first exception. *)
Fixpoint for_each {A S} (body : S → A → res S) (l : list A) (st : S) : res S :=
  match l with
  | [] => Ok st
  | x :: l' => bind (body st x) (for_each body l')
  end.

End Py.

Import Py.

Global Instance res_ret : MRet res := @Ok.
Global Instance res_bind : MBind res := λ A B k m, bind m k.

(** ** The networkx graph *)

(** [nx.Graph]: [G._node] maps a node to its attribute dictionary (here
    only the optional ['population'] attribute) and is iterated in
    insertion order by [G.nodes()]; [G._adj] maps a node to its
    neighbours, themselves kept in insertion order. *)
Record Graph : Type := mkGraph {
  node_attr : list (Z * option Z);
  adj : gmap Z (list Z)
}.

(** [nx.Graph()] *)
Definition empty_graph : Graph := mkGraph [] ∅.

(** [G.nodes()] : the node identifiers in insertion order. *)
Definition nodes (G : Graph) : list Z := (node_attr G).*1.

(** [n in G] *)
Definition has_node (G : Graph) (n : Z) : bool := bool_decide (n ∈ nodes G).

(** Assignment [d[k] = v] on an insertion-ordered dictionary: an existing
    key keeps its position. *)
Fixpoint alist_set {V} (k : Z) (v : V) (d : list (Z * V)) : list (Z * V) :=
  match d with
  | [] => [(k, v)]
  | (k', v') :: d' =>
      if decide (k' = k) then (k', v) :: d' else (k', v') :: alist_set k v d'
  end.

Fixpoint alist_get {V} (k : Z) (d : list (Z * V)) : option V :=
  match d with
  | [] => None
  | (k', v') :: d' => if decide (k' = k) then Some v' else alist_get k d'
  end.

(** [G.add_node(n, population=p)] *)
Definition add_node (n : Z) (p : Z) (G : Graph) : Graph :=
  if has_node G n
  then mkGraph (alist_set n (Some p) (node_attr G)) (adj G)
  else mkGraph (node_attr G ++ [(n, Some p)]) (<[n := []]> (adj G)).

(** The node-creating prelude of [G.add_edge]: an endpoint that is not yet
    a node is added without attributes. *)
Definition ensure_node (n : Z) (G : Graph) : Graph :=
  if has_node G n then G
  else mkGraph (node_attr G ++ [(n, None)]) (<[n := []]> (adj G)).

(** [G._adj[u][v] = datadict] *)
Definition add_nbr (u v : Z) (a : gmap Z (list Z)) : gmap Z (list Z) :=
  let l := default [] (a !! u) in
  <[u := if decide (v ∈ l) then l else l ++ [v]]> a.

(** [G.add_edge(u, v)] *)
Definition add_edge (u v : Z) (G : Graph) : Graph :=
  let G' := ensure_node v (ensure_node u G) in
  mkGraph (node_attr G') (add_nbr v u (add_nbr u v (adj G'))).

(** [G.nodes[n]['population']] *)
Definition population (G : Graph) (n : Z) : res Z :=
  match alist_get n (node_attr G) with
  | Some (Some p) => Ok p
  | _ => Raise KeyError
  end.

(** ** Breadth-first search: [nx.single_source_shortest_path_length] *)

(** The inner loops of networkx's [_single_shortest_path_length]:
    <<
    for w in adj[v]:
        if w not in seen:
            seen.add(w); nextlevel.append(w); yield (w, level)
    >>
    The set [seen] and the yielded pairs are kept together as one map from
    a seen node to the level it was yielded at. *)
Definition visit (level : Z) (st : gmap Z Z * list Z) (w : Z) : gmap Z Z * list Z :=
  match st.1 !! w with
  | Some _ => st
  | None => (<[w := level]> st.1, st.2 ++ [w])
  end.

Definition expand (a : gmap Z (list Z)) (level : Z)
    (st : gmap Z Z * list Z) (v : Z) : gmap Z Z * list Z :=
  foldl (visit level) st (default [] (a !! v)).

(** The [while nextlevel] loop.  Every round that does not end the loop
    yields at least one new node, so [fuel = len(adj)] rounds are always
    enough (lemma [bfs_fuel_enough] below); networkx's own shortcut
    [if len(seen) == n: return] only skips rounds that yield nothing. *)
Fixpoint bfs_levels (fuel : nat) (a : gmap Z (list Z))
    (seen : gmap Z Z) (nextlevel : list Z) (level : Z) : gmap Z Z :=
  match fuel with
  | O => seen
  | S fuel' =>
      match nextlevel with
      | [] => seen
      | _ =>
          let st := foldl (expand a (level + 1)) (seen, []) nextlevel in
          bfs_levels fuel' a st.1 st.2 (level + 1)
      end
  end.

Definition single_source_shortest_path_length (G : Graph) (source : Z)
    : res (gmap Z Z) :=
  if has_node G source
  then Ok (bfs_levels (size (adj G)) (adj G) {[source := 0]} [source] 0)
  else Raise NodeNotFound.

(** ** Helper functions of pbl.py *)

(** <<
    def covered_nodes(G, center, X):
        return {node for node, dist in
                nx.single_source_shortest_path_length(G, center).items()
                if dist <= X}
    >> *)
Definition covered_nodes (G : Graph) (center : Z) (X : Z) : res (gset Z) :=
  lengths ← single_source_shortest_path_length G center;
  Ok (dom (filter (λ nd : Z * Z, nd.2 <= X) lengths)).

(** The body of [for node in G.nodes()] in [greedy_center_placement]; the
    state is the pair [(best_node, best_cover)]. *)
Definition try_node (G : Graph) (X : Z) (uncovered : gset Z)
    (best : option Z * gset Z) (node : Z) : res (option Z * gset Z) :=
  c ← covered_nodes G node X;
  let cover := c ∩ uncovered in
  if decide (size best.2 < size cover)%nat then Ok (Some node, cover) else Ok best.

(** One pass of the [for] loop, started from [(None, set())]. *)
Definition best_choice (G : Graph) (X : Z) (uncovered : gset Z)
    : res (option Z * gset Z) :=
  for_each (try_node G X uncovered) (nodes G) (None, ∅).

(** The [while uncovered] loop with an iteration budget. *)
Fixpoint while_uncovered (fuel : nat) (G : Graph) (X : Z)
    (uncovered : gset Z) (centers : list (option Z)) : res (list (option Z)) :=
  if decide (uncovered = ∅) then Ok centers
  else match fuel with
       | O => OutOfFuel
       | S fuel' =>
           best ← best_choice G X uncovered;
           while_uncovered fuel' G X (uncovered ∖ best.2) (centers ++ [best.1])
       end.

(** <<
    def greedy_center_placement(G, X):
        uncovered = set(G.nodes()); centers = []
        while uncovered: ...
        return centers
    >> *)
Definition greedy_center_placement (fuel : nat) (G : Graph) (X : Z)
    : res (list (option Z)) :=
  while_uncovered fuel G X (list_to_set (nodes G)) [].

(** ** The "Compute Centers" handler *)

(** <<
    G = nx.Graph()
    for i in range(1, num_locations + 1):
        G.add_node(i, population=population_list[i-1])
    for i in range(1, num_locations):
        G.add_edge(i, i + 1)
    >> *)
Definition add_location (population_list : list Z) (G : Graph) (i : Z) : res Graph :=
  match population_list !! Z.to_nat (i - 1) with
  | Some p => Ok (add_node i p G)
  | None => Raise IndexError
  end.

Definition add_link (G : Graph) (i : Z) : Graph := add_edge i (i + 1) G.

Definition build_chain (num_locations : Z) (population_list : list Z) : res Graph :=
  G ← for_each (add_location population_list) (seqZ 1 num_locations) empty_graph;
  Ok (foldl add_link G (seqZ 1 (num_locations - 1))).

(** What the handler has computed when it reaches the "Coverage Summary". *)
Record PlacementResult : Type := mkResult {
  centers : list (option Z);
  center_coverage_map : gmap Z (list Z);
  all_covered : gset Z;
  uncovered_final : gset Z;          (* [uncovered] of line 126 *)
  total_population : Z;
  covered_population : Z;
  coverage_percent : Q
}.

(** [sorted(list(s))] for a set of integers. *)
Definition sorted (s : gset Z) : list Z := merge_sort Z.le (elements s).

(** The body of [for c in centers]; the state is
    [(center_coverage_map, all_covered)].  A center that is [None] is not
    a node, so [covered_nodes] raises for it. *)
Definition record_center (G : Graph) (X : Z)
    (st : gmap Z (list Z) * gset Z) (c : option Z) : res (gmap Z (list Z) * gset Z) :=
  match c with
  | None => Raise NodeNotFound
  | Some c =>
      nodes_covered_by_c ← covered_nodes G c X;
      Ok (<[c := sorted nodes_covered_by_c]> st.1, st.2 ∪ nodes_covered_by_c)
  end.

(** [sum(population_list)] *)
Definition sum (l : list Z) : Z := foldl Z.add 0 l.

(** [sum(G.nodes[n]['population'] for n in s)] *)
Definition population_of (G : Graph) (s : gset Z) : res Z :=
  for_each (λ acc n, p ← population G n; Ok (acc + p)) (elements s) 0.

(** [a / b] on integers: the exact quotient, or [ZeroDivisionError].
    Python rounds the quotient to a float; the two agree whenever the
    quotient is a float, as 0 and 1 are. *)
Definition true_div (a b : Z) : res Q :=
  if decide (b = 0) then Raise ZeroDivisionError
  else Ok (inject_Z a / inject_Z b)%Q.

(** Lines 119-124: the coverage groups of the chosen centers. *)
Definition coverage_groups (G : Graph) (X : Z) (centers : list (option Z))
    : res (gmap Z (list Z) * gset Z) :=
  for_each (record_center G X) centers (∅, ∅).

(** Lines 126-131: the uncovered nodes and the statistics. *)
Definition statistics (G : Graph) (population_list : list Z)
    (centers : list (option Z)) (cov : gmap Z (list Z) * gset Z)
    : res PlacementResult :=
  let uncovered := list_to_set (nodes G) ∖ cov.2 in
  let total_population := sum population_list in
  covered_population ← population_of G cov.2;
  ratio ← true_div covered_population total_population;
  Ok (mkResult centers cov.1 cov.2 uncovered total_population
        covered_population (ratio * 100)%Q).

(** Lines 109-131, the part of the [try] block that computes. *)
Definition placement (fuel : nat) (num_locations : Z) (population_list : list Z)
    (X : Z) : res PlacementResult :=
  G ← build_chain num_locations population_list;
  centers ← greedy_center_placement fuel G X;
  cov ← coverage_groups G X centers;
  statistics G population_list centers cov.

(** What the page shows after the button is pressed. *)
Inductive shown : Type :=
| CountMismatch                   (* "Please enter exactly N population values." *)
| Summary (r : PlacementResult)   (* the coverage summary and the plot *)
| InvalidInput (e : exn)          (* [except Exception as e]: "Invalid input! ..." *)
| Unfinished.                     (* the iteration budget ran out *)

(** The button handler from line 105 on, for a population list that
    [int] has parsed. *)
Definition compute_centers (fuel : nat) (num_locations : Z)
    (population_list : list Z) (X : Z) : shown :=
  if decide (Z.of_nat (length population_list) ≠ num_locations) then CountMismatch
  else match placement fuel num_locations population_list X with
       | Ok r => Summary r
       | Raise e => InvalidInput e
       | OutOfFuel => Unfinished
       end.

(** ** Names used in the statements *)

(** The set [covered_nodes] returns for a node of the graph. *)
Definition reach (G : Graph) (v : Z) (X : Z) : gset Z :=
  dom (filter (λ nd : Z * Z, nd.2 <= X)
         (bfs_levels (size (adj G)) (adj G) {[v := 0]} [v] 0)).

(** [len(covered_nodes(G, v, X) & uncovered)] *)
Definition gain (G : Graph) (X : Z) (uncovered : gset Z) (v : Z) : nat :=
  size (reach G v X ∩ uncovered).

(** [v] is the first node, in the iteration order of [G.nodes()], whose
    gain is the maximum over all nodes of the graph. *)
Definition first_of_max_gain (G : Graph) (X : Z) (uncovered : gset Z) (v : Z) : Prop :=
  ∃ i : nat, nodes G !! i = Some v ∧
    (∀ u, u ∈ nodes G → (gain G X uncovered u ≤ gain G X uncovered v)%nat) ∧
    (∀ (j : nat) u, (j < i)%nat → nodes G !! j = Some u →
       (gain G X uncovered u < gain G X uncovered v)%nat).

(** The union of the full reach sets of a list of centers. *)
Definition covered_by (G : Graph) (X : Z) (cs : list Z) : gset Z :=
  ⋃ ((λ c, reach G c X) <$> cs).

(** [adj[v]] *)
Definition adj_of (a : gmap Z (list Z)) (v : Z) : list Z := default [] (a !! v).

(** ** Invariants used in the proofs *)

(** The invariant networkx keeps: the nodes are the keys of the
    adjacency, and every neighbour is a node. *)
Definition wf_graph (G : Graph) : Prop :=
  (∀ v, v ∈ nodes G ↔ is_Some (adj G !! v)) ∧
  (∀ v w, w ∈ adj_of (adj G) v → is_Some (adj G !! w)).


(** What a sweep at [level] over candidates [P] does to the pair
    [(seen, nextlevel)]: the unseen candidates, and only they, are added
    to both, at that level. *)
Definition sweeps (level : Z) (P : Z → Prop) (st st' : gmap Z Z * list Z) : Prop :=
  (∀ x d, st'.1 !! x = Some d ↔
          st.1 !! x = Some d ∨ (st.1 !! x = None ∧ P x ∧ d = level)) ∧
  (∀ x, x ∈ st'.2 ↔ x ∈ st.2 ∨ (st.1 !! x = None ∧ P x)).

(** The invariant of the scan after the nodes [l] were tried. *)
Definition scanned (G : Graph) (X : Z) (U : gset Z) (l : list Z) (best : option Z * gset Z) : Prop :=
  (∀ u, u ∈ l → (gain G X U u ≤ size best.2)%nat) ∧
  match best.1 with
  | None => best.2 = ∅
  | Some v =>
      best.2 = reach G v X ∩ U ∧ (0 < size best.2)%nat ∧
      ∃ i : nat, l !! i = Some v ∧
        ∀ (j : nat) u, (j < i)%nat → l !! j = Some u → (gain G X U u < size best.2)%nat
  end.


(** ** Graphs used in examples *)

(** The graph of a successful construction. *)
Definition graph_of (r : res Graph) : Graph :=
  match r with Ok G => G | _ => empty_graph end.

(** The chain the handler builds for the given populations. *)
Definition chain (population_list : list Z) : Graph :=
  graph_of (build_chain (Z.of_nat (length population_list)) population_list).

Definition chain2 : Graph := chain [3; 4].
Definition chain3 : Graph := chain [3; 0; 7].
Definition chain5 : Graph := chain [10; 10; 10; 10; 10].

(** ** The shape of the chain *)

(** The neighbours of location [i] in a chain of [N] locations, in the
    order [add_edge] records them. *)
Definition nbrs (N i : Z) : list Z :=
  (if bool_decide (1 < i) then [i - 1] else []) ++
  (if bool_decide (i < N) then [i + 1] else []).

(** What the construction has built once the first [k] locations are
    added: the nodes in order, their populations, no edges yet. *)
Definition located (population_list : list Z) (k : Z) (G : Graph) : Prop :=
  nodes G = seqZ 1 k ∧
  (∀ i p, 1 <= i <= k → population_list !! Z.to_nat (i - 1) = Some p →
     alist_get i (node_attr G) = Some (Some p)) ∧
  (∀ i, adj G !! i = if bool_decide (1 <= i <= k) then Some [] else None).

(** The adjacency once the first [k] links of a chain of [N] are added. *)
Definition linked (N k : Z) (a : gmap Z (list Z)) : Prop :=
  ∀ i, a !! i =
    if bool_decide (1 <= i <= N)
    then Some ((if bool_decide (1 < i <= k + 1) then [i - 1] else []) ++
               (if bool_decide (i <= k) then [i + 1] else []))
    else None.

(** The search from [c] on a chain of [N] after the round at level [k]:
    the nodes within [k] steps are seen at their distance, and the
    frontier holds those at exactly [k] steps. *)
Definition chain_front (N c k : Z) (seen : gmap Z Z) (F : list Z) : Prop :=
  (∀ x d, seen !! x = Some d ↔ 1 <= x <= N ∧ d = Z.abs (x - c) ∧ d <= k) ∧
  (∀ x, x ∈ F ↔ 1 <= x <= N ∧ Z.abs (x - c) = k).

(** ** Sums *)

(** The sum of a list of integers, as a right fold. *)
Definition Zsum (l : list Z) : Z := foldr Z.add 0 l.

(** The population entered for location [i], 0 outside the list. *)
Definition entered (population_list : list Z) (i : Z) : Z :=
  default 0 (population_list !! Z.to_nat (i - 1)).

(** ** Greedy placement on a chain *)

(** The set of integers from [lo] to [hi]. *)
Definition span (lo hi : Z) : gset Z := list_to_set (seqZ lo (hi - lo + 1)).

(** A tree of eleven locations on which a larger radius costs a center:
    the path 6-1-2-3-5-7-8-9-10 with 4 hanging off 3 and 11 off 8. *)
Definition tree11 : Graph :=
  foldl (λ G e, add_edge e.1 e.2 G)
    (foldl (λ G i, add_node i 1 G) empty_graph (seqZ 1 11))
    [(1, 2); (2, 3); (3, 4); (3, 5); (1, 6); (5, 7); (7, 8); (8, 9); (9, 10); (8, 11)].

(** ** Names used in the further properties *)

(** A chosen center that [covered_nodes] accepts: a node of the graph. *)
Definition center_ok (G : Graph) (c : option Z) : bool :=
  match c with
  | Some v => has_node G v
  | None => false
  end.

(** Each center of the list is a node and reaches some node that no
    earlier center of the list reaches. *)
Definition each_adds_coverage (G : Graph) (X : Z) (cs : list Z) : Prop :=
  ∀ (i : nat) c, cs !! i = Some c →
    c ∈ nodes G ∧
    ∃ n, n ∈ nodes G ∧ n ∈ reach G c X ∧
         ∀ (j : nat) c', (j < i)%nat → cs !! j = Some c' → n ∉ reach G c' X.

(** The centers expected on a chain of [N] locations when the locations
    from [p] on are uncovered: one in the middle of every full window of
    [2X + 1] locations, then, if locations remain, the first node that
    reaches the last location. *)
Fixpoint chain_centers_from (n : nat) (N X p : Z) : list Z :=
  match n with
  | O => []
  | S n' =>
      if decide (N < p) then []
      else if decide (p + 2 * X <= N)
           then (p + X) :: chain_centers_from n' N X (p + (2 * X + 1))
           else [Z.max 1 (N - X)]
  end.

Definition chain_centers_expected (N X : Z) : list Z :=
  chain_centers_from (Z.to_nat N) N X 1.

(** [walk a s x n]: [x] is joined to [s] by [n] edges of the adjacency
    [a], each step going from a node to one of its neighbours. *)
Inductive walk (a : gmap Z (list Z)) (s : Z) : Z → nat → Prop :=
| walk_here : walk a s s 0
| walk_on v w n : walk a s v n → w ∈ adj_of a v → walk a s w (S n).

(** The search from [s] after the round at level [k]: what is seen is
    joined to [s] by that many edges, everything within [k] edges is seen
    at no more than its number of edges, and the frontier is what was
    seen at level [k]. *)
Definition bfs_front (a : gmap Z (list Z)) (s : Z) (k : Z)
    (seen : gmap Z Z) (F : list Z) : Prop :=
  (∀ x d, seen !! x = Some d → 0 <= d <= k ∧ walk a s x (Z.to_nat d)) ∧
  (∀ x (n : nat), walk a s x n → Z.of_nat n <= k →
     ∃ d, seen !! x = Some d ∧ d <= Z.of_nat n) ∧
  (∀ x, x ∈ F ↔ seen !! x = Some k).

(** An undirected graph as networkx keeps it: well formed, and every
    edge is recorded at both of its ends. *)
Definition undirected (G : Graph) : Prop :=
  wf_graph G ∧ ∀ u v, v ∈ adj_of (adj G) u → u ∈ adj_of (adj G) v.

(** ** The drawing stage of the handler *)





Definition color_palette : list string :=
  ["#e74c3c"; "#27ae60"; "#9b59b6"; "#f39c12"; "#16a085"; "#d35400"; "#2980b9"].

(** The color of uncovered nodes. *)
Definition blue : string := "#3498db".

(** The [k]-th value (from 0) of [next(color_cycle)], where
    [color_cycle = itertools.cycle(color_palette)]. *)
Definition next_color (k : nat) : string :=
  color_palette !!! (k `mod` length color_palette)%nat.

(** The state of the loop of lines 185-189: how many colors were drawn
    from the cycle, [center_colors] and [node_colors]. *)
Record painting : Type := mkPainting {
  drawn : nat;
  center_colors : gmap Z string;
  node_colors : gmap Z string
}.

(** [for node in l: node_colors[node] = color] *)
Definition paint_nodes (color : string) (l : list Z) (nc : gmap Z string)
    : gmap Z string :=
  foldl (λ nc node, <[node := color]> nc) nc l.

(** The body of [for c in centers] at line 185.  Looking up
    [center_coverage_map[c]] raises [KeyError] for a missing key, [None]
    included. *)
Definition paint_center (ccm : gmap Z (list Z)) (st : painting) (c : option Z)
    : res painting :=
  let color := next_color (drawn st) in
  match c with
  | None => Raise KeyError
  | Some c =>
      match ccm !! c with
      | None => Raise KeyError
      | Some l =>
          Ok (mkPainting (S (drawn st)) (<[c := color]> (center_colors st))
                (paint_nodes color l (node_colors st)))
      end
  end.

(** Lines 181-193 and the list [[node_colors[n] for n in G.nodes()]] of
    line 200. *)
Definition colouring (G : Graph) (centers : list (option Z))
    (ccm : gmap Z (list Z)) (uncovered : gset Z)
    : res (painting * list string) :=
  st ← for_each (paint_center ccm) centers (mkPainting 0 ∅ ∅);
  let nc := paint_nodes blue (elements uncovered) (node_colors st) in
  cols ← for_each (λ acc n, match nc !! n with
                            | Some col => Ok (acc ++ [col])
                            | None => Raise KeyError
                            end) (nodes G) [];
  Ok (mkPainting (drawn st) (center_colors st) nc, cols).

(** The summary for the populations 1, 2, 3, 4 with radius 1. *)
Definition summary_of_four : PlacementResult :=
  mkResult [Some 2; Some 3] (<[3 := [2; 3; 4]]> {[2 := [1; 2; 3]]})
    (list_to_set [1; 2; 3; 4]) ∅ 10 10 (inject_Z 10 / inject_Z 10 * 100)%Q.

(** * Properties *)

(** ** The error monad *)

Lemma bind_Ok {A B} (a : A) (k : A → res B) : Ok a ≫= k = k a.
Proof. reflexivity. Qed.

Lemma for_each_cons {A S} (body : S → A → res S) (x : A) (l : list A) (st : S) :
  for_each body (x :: l) st = body st x ≫= for_each body l.
Proof. reflexivity. Qed.

Lemma for_each_app {A S} (body : S → A → res S) (l1 l2 : list A) (st : S) :
  for_each body (l1 ++ l2) st = for_each body l1 st ≫= for_each body l2.
Proof.
  revert st. induction l1 as [|x l1 IH]; intros st; simpl; [done|].
  destruct (body st x) as [st'| |]; simpl; [apply IH|done|done].
Qed.

Lemma for_each_snoc {A S} (body : S → A → res S) (l : list A) (x : A) (st : S) :
  for_each body (l ++ [x]) st = for_each body l st ≫= λ st', body st' x.
Proof.
  rewrite for_each_app. destruct (for_each body l st) as [st'| |]; simpl; [|done|done].
  by destruct (body st' x).
Qed.

(** ** Breadth-first search *)

Section bfs.
Context (a : gmap Z (list Z)).

Lemma sweeps_none level st : sweeps level (λ _, False) st st.
Proof. split; intros; tauto. Qed.

Lemma sweeps_ext level (P Q : Z → Prop) st st' :
  (∀ x, P x ↔ Q x) → sweeps level P st st' → sweeps level Q st st'.
Proof.
  intros HPQ [H1 H2]. split.
  - intros x d. rewrite H1, HPQ. done.
  - intros x. rewrite H2, HPQ. done.
Qed.

Lemma sweeps_then level (P Q : Z → Prop) st1 st2 st3 :
  sweeps level P st1 st2 → sweeps level Q st2 st3 →
  sweeps level (λ x, P x ∨ Q x) st1 st3.
Proof.
  intros [H1 H2] [H3 H4]. split.
  - intros x d. rewrite H3. split.
    + intros [Hx|(Hx & HQ & ->)].
      * apply H1 in Hx. tauto.
      * right. split; [|tauto]. destruct (st1.1 !! x) as [d'|] eqn:E; [|done].
        assert (st2.1 !! x = Some d') as Hold by (apply H1; tauto). congruence.
    + intros [Hx|(Hx & HPQ & ->)].
      * left. apply H1. tauto.
      * destruct (st2.1 !! x) as [d'|] eqn:E.
        { left. apply H1 in E as [E|(_ & _ & ->)]; [congruence|done]. }
        right. split; [done|]. split; [|done]. destruct HPQ as [HP|HQ]; [|done].
        assert (st2.1 !! x = Some level) as Hnew by (apply H1; tauto). congruence.
  - intros x. rewrite H4, H2. split.
    + intros [[Hx|Hx]|(Hx & HQ)]; [tauto|tauto|].
      right. split; [|tauto]. destruct (st1.1 !! x) as [d'|] eqn:E; [|done].
      assert (st2.1 !! x = Some d') as Hold by (apply H1; tauto). congruence.
    + intros [Hx|(Hx & HPQ)]; [tauto|].
      destruct (st2.1 !! x) as [d'|] eqn:E.
      { left. right. apply H1 in E as [E|(_ & HP & _)]; [congruence|done]. }
      destruct HPQ as [HP|HQ]; [|tauto].
      assert (st2.1 !! x = Some level) as Hnew by (apply H1; tauto). congruence.
Qed.

Lemma visit_sweeps level st w : sweeps level (λ x, x = w) st (visit level st w).
Proof.
  unfold visit. destruct (st.1 !! w) as [d'|] eqn:Hw.
  - split; [intros x d|intros x]; split; try tauto.
    + intros [?|(Hx & -> & _)]; [done|congruence].
    + intros [?|(Hx & ->)]; [done|congruence].
  - split; simpl.
    + intros x d. destruct (decide (w = x)) as [->|Hne].
      * rewrite lookup_insert_eq. split.
        { intros [= <-]. tauto. }
        { intros [?|(_ & _ & ->)]; [congruence|done]. }
      * rewrite lookup_insert_ne by done. split; [tauto|].
        intros [?|(_ & -> & _)]; [done|congruence].
    + intros x. rewrite elem_of_app, list_elem_of_singleton. split.
      * intros [?| ->]; tauto.
      * intros [?|(_ & ->)]; tauto.
Qed.

Lemma visits_sweeps level ws : ∀ st,
  sweeps level (λ x, x ∈ ws) st (foldl (visit level) st ws).
Proof.
  induction ws as [|w ws IH]; intros st; simpl.
  - eapply sweeps_ext; [|apply sweeps_none]. intros x. by rewrite elem_of_nil.
  - eapply sweeps_ext; [|eapply sweeps_then; [apply visit_sweeps|apply IH]].
    intros x. simpl. by rewrite elem_of_cons.
Qed.

Lemma expand_sweeps level st v :
  sweeps level (λ x, x ∈ adj_of a v) st (expand a level st v).
Proof. apply visits_sweeps. Qed.

(** One round of the [while] loop over the frontier [F]. *)
Lemma round_sweeps level F : ∀ st,
  sweeps level (λ x, ∃ v, v ∈ F ∧ x ∈ adj_of a v) st (foldl (expand a level) st F).
Proof.
  induction F as [|v F IH]; intros st; simpl.
  - eapply sweeps_ext; [|apply sweeps_none]. intros x. split; [done|].
    intros (v & Hv & _). by apply elem_of_nil in Hv.
  - eapply sweeps_ext; [|eapply sweeps_then; [apply expand_sweeps|apply IH]].
    intros x. simpl. split.
    + intros [Hx|(u & Hu & Hx)]; [exists v|exists u]; split; by (done || constructor).
    + intros (u & [->|Hu]%elem_of_cons & Hx); [by left|right; eauto].
Qed.

Lemma bfs_levels_keeps fuel seen nextlevel level k d :
  seen !! k = Some d → bfs_levels fuel a seen nextlevel level !! k = Some d.
Proof.
  revert seen nextlevel level.
  induction fuel as [|fuel IH]; intros seen nextlevel level Hk; simpl; [done|].
  destruct nextlevel as [|v l]; [done|].
  apply IH. apply (round_sweeps (level + 1) (v :: l) (seen, [])). by left.
Qed.

Lemma bfs_levels_nonneg fuel seen nextlevel level :
  0 <= level → map_Forall (λ _ d, 0 <= d) seen →
  map_Forall (λ _ d, 0 <= d) (bfs_levels fuel a seen nextlevel level).
Proof.
  revert seen nextlevel level.
  induction fuel as [|fuel IH]; intros seen nextlevel level Hl Hs; simpl; [done|].
  destruct nextlevel as [|v l]; [done|].
  apply IH; [lia|]. intros k d Hk.
  apply (round_sweeps (level + 1) (v :: l) (seen, [])) in Hk as [Hold|(_ & _ & ->)];
    [by apply (Hs k d)|lia].
Qed.
End bfs.

(** ** [covered_nodes] *)

Lemma has_node_true G v : has_node G v = true ↔ v ∈ nodes G.
Proof. unfold has_node. by rewrite bool_decide_eq_true. Qed.

Lemma covered_nodes_node G v X :
  v ∈ nodes G → covered_nodes G v X = Ok (reach G v X).
Proof.
  intros Hv. unfold covered_nodes, single_source_shortest_path_length.
  apply has_node_true in Hv. by rewrite Hv.
Qed.

Lemma covered_nodes_not_node G v X :
  v ∉ nodes G → covered_nodes G v X = Raise NodeNotFound.
Proof.
  intros Hv. unfold covered_nodes, single_source_shortest_path_length.
  destruct (has_node G v) eqn:E; [|done]. by apply has_node_true in E.
Qed.

Lemma elem_of_reach G v X n :
  n ∈ reach G v X ↔
  ∃ d, bfs_levels (size (adj G)) (adj G) {[v := 0]} [v] 0 !! n = Some d ∧ d <= X.
Proof.
  unfold reach. rewrite elem_of_dom. split.
  - intros [d Hd]. apply map_lookup_filter_Some in Hd as [? ?]. eauto.
  - intros (d & ? & ?). exists d. by apply map_lookup_filter_Some.
Qed.

(** Every node covers itself at distance 0. *)
Lemma reach_self G v X : 0 <= X → v ∈ reach G v X.
Proof.
  intros HX. apply elem_of_reach. exists 0. split; [|done].
  apply bfs_levels_keeps, lookup_singleton_eq.
Qed.

(** No distance is negative, so a negative radius reaches nothing. *)
Lemma reach_negative G v X : X < 0 → reach G v X = ∅.
Proof.
  intros HX. apply set_eq. intros n. split; [|set_solver].
  intros (d & Hd & Hle)%elem_of_reach. exfalso.
  assert (0 <= d); [|lia].
  eapply (bfs_levels_nonneg (adj G)) in Hd; [exact Hd|done|].
  intros k x [_ <-]%lookup_singleton_Some. done.
Qed.

(** ** The search is never cut short *)

Lemma bfs_levels_nil fuel a seen level : bfs_levels fuel a seen [] level = seen.
Proof. by destruct fuel. Qed.

Section fuel.
Context (a : gmap Z (list Z)).
Context (Hclosed : ∀ v w, w ∈ adj_of a v → is_Some (a !! w)).

Lemma bfs_levels_stable fuel : ∀ seen F level (k : nat),
  dom seen ⊆ dom a → (∀ x, x ∈ F → is_Some (seen !! x)) →
  (size a < size seen + fuel)%nat →
  bfs_levels (fuel + k) a seen F level = bfs_levels fuel a seen F level.
Proof.
  induction fuel as [|fuel IH]; intros seen F level k Hdom HF Hsize.
  - apply subseteq_size in Hdom. rewrite !size_dom in Hdom. lia.
  - simpl. destruct F as [|v F]; [done|].
    pose proof (round_sweeps a (level + 1) (v :: F) (seen, [])) as [H1 H2].
    set (st := foldl (expand a (level + 1)) (seen, []) (v :: F)) in *.
    simpl in H1, H2.
    destruct (decide (st.2 = [])) as [EF|EF]; [by rewrite EF, !bfs_levels_nil|].
    assert (∃ y, y ∈ st.2) as [y Hy].
    { destruct (st.2) as [|y F']; [done|]. exists y. constructor. }
    apply IH.
    + intros x [d Hd]%elem_of_dom. apply elem_of_dom.
      apply H1 in Hd as [Hd|(_ & (u & _ & Hx) & _)]; [|by eapply Hclosed].
      apply elem_of_dom, Hdom, elem_of_dom. eauto.
    + intros x Hx. apply H2 in Hx as [Hx|(Hx & HP)]; [by apply elem_of_nil in Hx|].
      exists (level + 1). apply H1. tauto.
    + apply H2 in Hy as [Hy|(Hy & HP)]; [by apply elem_of_nil in Hy|].
      assert (dom seen ⊂ dom st.1) as Hsub.
      { split.
        - intros x [d Hd]%elem_of_dom. apply elem_of_dom. exists d. apply H1. tauto.
        - intros Hback. assert (y ∈ dom seen) as Hin.
          { apply Hback, elem_of_dom. exists (level + 1). apply H1. tauto. }
          apply elem_of_dom in Hin as [d Hd]. congruence. }
      apply subset_size in Hsub. rewrite !size_dom in Hsub. lia.
Qed.

(** [len(adj)] rounds are enough: more rounds find nothing new. *)
Lemma bfs_fuel_enough source (k : nat) :
  is_Some (a !! source) →
  bfs_levels (size a + k) a {[source := 0]} [source] 0
  = bfs_levels (size a) a {[source := 0]} [source] 0.
Proof.
  intros Hs. apply bfs_levels_stable.
  - rewrite dom_singleton_L. intros x ->%elem_of_singleton. by apply elem_of_dom.
  - intros x ->%list_elem_of_singleton. rewrite lookup_singleton_eq. eauto.
  - rewrite map_size_singleton. lia.
Qed.
End fuel.

(** ** Graphs built through the networkx interface are well formed *)

Lemma alist_set_keys {V} (d : list (Z * V)) k v :
  k ∈ d.*1 → (alist_set k v d).*1 = d.*1.
Proof.
  induction d as [|[k0 v0] d IH]; [by intros ?%elem_of_nil|].
  rewrite fmap_cons. cbn [alist_set fst]. intros Hk.
  destruct (decide (k0 = k)) as [->|Hne]; [done|].
  rewrite fmap_cons. cbn [fst]. f_equal. apply IH.
  apply elem_of_cons in Hk as [->|Hk]; done.
Qed.

Lemma wf_empty_graph : wf_graph empty_graph.
Proof.
  split.
  - intros v. simpl. rewrite lookup_empty. split; [by intros ?%elem_of_nil|].
    by intros ?%is_Some_None.
  - intros v w. unfold adj_of. simpl. rewrite lookup_empty. simpl.
    by intros ?%elem_of_nil.
Qed.

Lemma wf_new_node G n attr :
  wf_graph G → n ∉ nodes G →
  wf_graph (mkGraph (node_attr G ++ [(n, attr)]) (<[n := []]> (adj G))).
Proof.
  intros [Hkeys Hclosed] Hfresh. split.
  - intros v. unfold nodes. simpl. rewrite fmap_app, elem_of_app. fold (nodes G).
    simpl. rewrite list_elem_of_singleton, lookup_insert_is_Some', Hkeys.
    naive_solver.
  - intros v w. unfold adj_of. simpl. rewrite lookup_insert_is_Some'.
    destruct (decide (n = v)) as [->|Hne].
    + rewrite lookup_insert_eq. simpl. by intros ?%elem_of_nil.
    + rewrite lookup_insert_ne by done. intros Hw. right. by eapply Hclosed.
Qed.

Lemma wf_add_node G n p : wf_graph G → wf_graph (add_node n p G).
Proof.
  intros HG. unfold add_node. destruct (has_node G n) eqn:E.
  - apply has_node_true in E. destruct HG as [Hkeys Hclosed]. split; [|done].
    intros v. unfold nodes. simpl. rewrite alist_set_keys by done. apply Hkeys.
  - apply wf_new_node; [done|]. intros Hn%has_node_true. congruence.
Qed.

Lemma wf_ensure_node G n : wf_graph G → wf_graph (ensure_node n G) ∧ n ∈ nodes (ensure_node n G).
Proof.
  intros HG. unfold ensure_node. destruct (has_node G n) eqn:E.
  - by apply has_node_true in E.
  - split.
    + apply wf_new_node; [done|]. intros Hn%has_node_true. congruence.
    + unfold nodes. simpl. rewrite fmap_app. set_solver.
Qed.

Lemma ensure_node_keeps G n v : v ∈ nodes G → v ∈ nodes (ensure_node n G).
Proof.
  intros Hv. unfold ensure_node. destruct (has_node G n); [done|].
  unfold nodes. simpl. rewrite fmap_app. set_solver.
Qed.

Lemma add_nbr_lookup u v a x :
  add_nbr u v a !! x =
  if decide (u = x)
  then Some (if decide (v ∈ adj_of a u) then adj_of a u else adj_of a u ++ [v])
  else a !! x.
Proof.
  unfold add_nbr, adj_of. destruct (decide (u = x)) as [->|Hne].
  - by rewrite lookup_insert_eq.
  - by rewrite lookup_insert_ne.
Qed.

Lemma add_nbr_closed u v a :
  is_Some (a !! u) → is_Some (a !! v) →
  (∀ x w, w ∈ adj_of a x → is_Some (a !! w)) →
  (∀ x, is_Some (add_nbr u v a !! x) ↔ is_Some (a !! x)) ∧
  (∀ x w, w ∈ adj_of (add_nbr u v a) x → is_Some (add_nbr u v a !! w)).
Proof.
  intros Hu Hv Hclosed.
  assert (∀ x, is_Some (add_nbr u v a !! x) ↔ is_Some (a !! x)) as Hkeys.
  { intros x. rewrite add_nbr_lookup. destruct (decide (u = x)) as [->|]; [|done].
    split; [done|eauto]. }
  split; [done|]. intros x w. rewrite Hkeys. unfold adj_of at 1.
  rewrite add_nbr_lookup. destruct (decide (u = x)) as [->|Hne]; simpl.
  - destruct (decide (v ∈ adj_of a x)); [by apply Hclosed|].
    intros [Hw| ->%list_elem_of_singleton]%elem_of_app; [by eapply Hclosed|done].
  - apply Hclosed.
Qed.

Lemma wf_add_edge G u v : wf_graph G → wf_graph (add_edge u v G).
Proof.
  intros HG. unfold add_edge.
  destruct (wf_ensure_node G u HG) as [HG1 Hu1].
  destruct (wf_ensure_node (ensure_node u G) v HG1) as [[Hkeys Hclosed] Hv].
  pose proof (ensure_node_keeps (ensure_node u G) v u Hu1) as Hu.
  set (G' := ensure_node v (ensure_node u G)) in *.
  apply Hkeys in Hu, Hv.
  destruct (add_nbr_closed u v (adj G') Hu Hv Hclosed) as [Hk1 Hc1].
  destruct (add_nbr_closed v u (add_nbr u v (adj G'))) as [Hk2 Hc2];
    [by apply Hk1|by apply Hk1|done|].
  split; simpl.
  - intros x. change (x ∈ nodes G' ↔ is_Some (add_nbr v u (add_nbr u v (adj G')) !! x)).
    by rewrite Hk2, Hk1.
  - done.
Qed.

Lemma wf_tree11 : wf_graph tree11.
Proof.
  unfold tree11.
  change (seqZ 1 11) with [1; 2; 3; 4; 5; 6; 7; 8; 9; 10; 11].
  cbn [foldl fst snd].
  do 10 apply wf_add_edge. do 11 apply wf_add_node. apply wf_empty_graph.
Qed.

Lemma wf_build_chain N population_list G :
  build_chain N population_list = Ok G → wf_graph G.
Proof.
  unfold build_chain. intros HG.
  destruct (for_each _ _ _) as [G0| |] eqn:E; [rewrite bind_Ok in HG|done|done].
  injection HG as <-.
  assert (wf_graph G0) as HG0.
  { clear -E. revert E. generalize (seqZ 1 N). intros l. revert G0.
    induction l as [|i l IH] using rev_ind; intros G0.
    - intros [= <-]. apply wf_empty_graph.
    - rewrite for_each_snoc.
      destruct (for_each _ l _) as [G1| |]; [rewrite bind_Ok|done|done].
      unfold add_location. destruct (_ !! _); [|done].
      intros [= <-]. by apply wf_add_node, IH. }
  generalize (seqZ 1 (N - 1)). intros l.
  induction l as [|i l IH] using rev_ind; [done|].
  rewrite foldl_snoc. by apply wf_add_edge.
Qed.

(** For a well-formed graph the reach set of a node does not depend on
    the number of rounds allowed beyond [len(adj)]. *)
Lemma search_complete G v (k : nat) :
  wf_graph G → v ∈ nodes G →
  bfs_levels (size (adj G) + k) (adj G) {[v := 0]} [v] 0
  = bfs_levels (size (adj G)) (adj G) {[v := 0]} [v] 0.
Proof.
  intros [Hkeys Hclosed] Hv. apply bfs_fuel_enough; [done|]. by apply Hkeys.
Qed.

(** ** The inner [for] loop *)

Section inner_loop.
Context (G : Graph) (X : Z) (U : gset Z).

Lemma scan_prefix (l : list Z) :
  (∀ u, u ∈ l → u ∈ nodes G) →
  ∃ best, for_each (try_node G X U) l (None, ∅) = Ok best ∧ scanned G X U l best.
Proof.
  induction l as [|x l IH] using rev_ind; intros Hl.
  - exists (None, ∅). split; [done|]. split; [|done].
    intros u Hu. by apply elem_of_nil in Hu.
  - destruct IH as ([bn bc] & Hrun & Hmax & Hbest).
    { intros u Hu. apply Hl. set_solver. }
    rewrite for_each_snoc, Hrun. simpl.
    unfold try_node. rewrite covered_nodes_node by (apply Hl; set_solver).
    simpl in *. destruct (decide (size bc < size (reach G x X ∩ U))%nat) as [Hlt|Hge].
    + eexists. split; [done|]. split; simpl.
      * intros u [Hu| ->%list_elem_of_singleton]%elem_of_app; [|done].
        specialize (Hmax u Hu). unfold gain in *. lia.
      * split; [done|]. split; [lia|]. exists (length l). split.
        { by rewrite lookup_app_r, Nat.sub_diag by lia. }
        intros j u Hj Hu. rewrite lookup_app_l in Hu by done.
        assert (gain G X U u ≤ size bc)%nat; [|lia].
        apply Hmax. by eapply list_elem_of_lookup_2.
    + eexists. split; [done|]. split; simpl.
      * intros u [Hu| ->%list_elem_of_singleton]%elem_of_app; [by apply Hmax|].
        unfold gain. lia.
      * destruct bn as [v|]; [|done].
        destruct Hbest as (Hbc & Hpos & i & Hi & Hbefore).
        split; [done|]. split; [done|]. exists i. split.
        { apply lookup_app_l_Some, Hi. }
        intros j u Hj Hu. apply (Hbefore j u Hj).
        apply lookup_lt_Some in Hi. by rewrite lookup_app_l in Hu by lia.
Qed.

Lemma best_choice_scanned :
  ∃ best, best_choice G X U = Ok best ∧ scanned G X U (nodes G) best.
Proof. apply scan_prefix. auto. Qed.

(** With nothing to gain anywhere the scan ends as it began. *)
Lemma best_choice_no_gain :
  (∀ u, u ∈ nodes G → gain G X U u = 0%nat) → best_choice G X U = Ok (None, ∅).
Proof.
  intros Hzero. destruct best_choice_scanned as ([bn bc] & -> & _ & Hbest).
  simpl in Hbest. destruct bn as [v|]; [|by rewrite Hbest].
  destruct Hbest as (-> & Hpos & i & Hi & _).
  apply list_elem_of_lookup_2, Hzero in Hi. unfold gain in Hi. lia.
Qed.

(** When some node has something to gain, the scan ends on the first
    node of maximum gain. *)
Lemma best_choice_some_gain u :
  u ∈ nodes G → (0 < gain G X U u)%nat →
  ∃ v, first_of_max_gain G X U v ∧ (0 < gain G X U v)%nat ∧
       best_choice G X U = Ok (Some v, reach G v X ∩ U).
Proof.
  intros Hu Hgain. destruct best_choice_scanned as ([bn bc] & Hrun & Hmax & Hbest).
  simpl in *. destruct bn as [v|].
  - destruct Hbest as (-> & Hpos & i & Hi & Hbefore).
    exists v. split; [|by split]. exists i. split; [done|]. split.
    + intros w Hw. apply (Hmax w Hw).
    + intros j w Hj Hw. apply (Hbefore j w Hj Hw).
  - subst bc. specialize (Hmax u Hu). rewrite size_empty in Hmax. lia.
Qed.
End inner_loop.

(** ** The [while] loop *)

Section outer_loop.
Context (G : Graph) (X : Z) (HX : 0 <= X).

Lemma gain_uncovered U u : u ∈ U → (0 < gain G X U u)%nat.
Proof.
  intros Hu. unfold gain.
  assert (reach G u X ∩ U ≠ ∅) as Hne.
  { pose proof (reach_self G u X HX). set_solver. }
  assert (size (reach G u X ∩ U) ≠ 0%nat); [|lia].
apply size_non_empty_iff. by intros ?%leibniz_equiv.
Qed.

(** One iteration from a non-empty [uncovered] set of nodes. *)
Lemma iteration U :
  U ≠ ∅ → U ⊆ list_to_set (nodes G) →
  ∃ v, first_of_max_gain G X U v ∧ (0 < gain G X U v)%nat ∧
       best_choice G X U = Ok (Some v, reach G v X ∩ U).
Proof.
  intros Hne Hsub. apply set_choose_L in Hne as [u Hu].
  apply (best_choice_some_gain G X U u).
  - apply Hsub in Hu. by apply elem_of_list_to_set in Hu.
  - by apply gain_uncovered.
Qed.

Lemma iteration_shrinks U v :
  (0 < gain G X U v)%nat → (size (U ∖ (reach G v X ∩ U)) < size U)%nat.
Proof.
  unfold gain. intros Hpos. apply subset_size.
  assert (reach G v X ∩ U ≠ ∅) as [w Hw]%set_choose_L.
  { intros E. rewrite E, size_empty in Hpos. lia. }
  set_solver.
Qed.

(** The loop ends within [size U] iterations; the centers it appends are
    nodes, one per iteration, and together they reach all of [U]. *)
Lemma while_uncovered_ends (n : nat) :
  ∀ U, (size U ≤ n)%nat → U ⊆ list_to_set (nodes G) →
  ∃ new : list Z,
    (length new ≤ size U)%nat ∧ (∀ c, c ∈ new → c ∈ nodes G) ∧
    U ⊆ covered_by G X new ∧
    ∀ fuel cs, (size U ≤ fuel)%nat →
      while_uncovered fuel G X U cs = Ok (cs ++ (Some <$> new)).
Proof.
  induction n as [|n IH]; intros U Hn Hsub.
  - assert (U = ∅) as -> by (apply leibniz_equiv, size_empty_iff; lia).
    exists []. split; [simpl; lia|]. split; [by intros c ?%elem_of_nil|].
    split; [set_solver|]. intros fuel cs _. rewrite app_nil_r.
    destruct fuel; simpl; by rewrite decide_True.
  - destruct (decide (U = ∅)) as [->|Hne].
    { exists []. split; [simpl; lia|]. split; [by intros c ?%elem_of_nil|].
      split; [set_solver|]. intros fuel cs _. rewrite app_nil_r.
      destruct fuel; simpl; by rewrite decide_True. }
    destruct (iteration U Hne Hsub) as (v & Hv & Hpos & Hbest).
    pose proof (iteration_shrinks U v Hpos) as Hlt.
    destruct (IH (U ∖ (reach G v X ∩ U))) as (new & Hlen & Hnodes & Hcov & Hrun);
      [lia|set_solver|].
    exists (v :: new). split; [simpl; lia|]. split; [|split].
    + intros c [->|Hc]%elem_of_cons; [|by apply Hnodes].
      destruct Hv as (i & Hi & _). by eapply list_elem_of_lookup_2.
    + unfold covered_by in *. simpl. intros x Hx.
      destruct (decide (x ∈ reach G v X)) as [Hin|Hout].
      * by apply elem_of_union_l.
      * apply elem_of_union_r, Hcov. set_solver.
    + intros fuel cs Hfuel. destruct fuel as [|fuel]; [lia|].
      simpl. rewrite decide_False by done. rewrite Hbest. simpl.
      rewrite Hrun by lia. by rewrite <- app_assoc.
Qed.
End outer_loop.

(** More iterations than needed change nothing. *)
Lemma while_uncovered_more_fuel G X fuel fuel' U cs r :
  (fuel ≤ fuel')%nat → r ≠ OutOfFuel →
  while_uncovered fuel G X U cs = r → while_uncovered fuel' G X U cs = r.
Proof.
  revert fuel' U cs. induction fuel as [|fuel IH]; intros fuel' U cs Hle Hr.
  - simpl. destruct fuel'; simpl; destruct (decide (U = ∅)); congruence.
  - destruct fuel' as [|fuel']; [lia|]. simpl.
    destruct (decide (U = ∅)); [done|].
    destruct (best_choice G X U) as [best| |]; simpl; [|done|done].
    apply IH; [lia|done].
Qed.

(** ** A negative radius *)

Section negative_radius.
Context (G : Graph) (X : Z) (HX : X < 0).

Lemma gain_negative U u : gain G X U u = 0%nat.
Proof. unfold gain. rewrite reach_negative by done. by rewrite intersection_empty_l_L. Qed.

Lemma best_choice_negative U : best_choice G X U = Ok (None, ∅).
Proof. apply best_choice_no_gain. intros u _. apply gain_negative. Qed.

Lemma while_uncovered_negative fuel U cs :
  U ≠ ∅ → while_uncovered fuel G X U cs = OutOfFuel.
Proof.
  intros HU. revert cs. induction fuel as [|fuel IH]; intros cs; simpl.
  - by rewrite decide_False.
  - rewrite decide_False by done. rewrite best_choice_negative. simpl.
    rewrite difference_empty_L. apply IH.
Qed.
End negative_radius.

(** ** Sorting a set *)

Lemma sorted_elem_of (s : gset Z) n : n ∈ sorted s ↔ n ∈ s.
Proof. unfold sorted. rewrite merge_sort_Permutation. apply elem_of_elements. Qed.

Lemma le_sorted_NoDup_lt (l : list Z) :
  StronglySorted Z.le l → NoDup l → StronglySorted Z.lt l.
Proof.
  induction 1 as [|x l Hl IH Hx]; intros Hnd; [constructor|].
  apply NoDup_cons in Hnd as [Hnotin Hnd]. constructor; [by apply IH|].
  apply Forall_forall. intros y Hy.
  pose proof (proj1 (Forall_forall _ _) Hx y Hy).
  assert (x ≠ y) by (by intros ->). lia.
Qed.

Lemma sorted_ascending (s : gset Z) : StronglySorted Z.lt (sorted s).
Proof.
  apply le_sorted_NoDup_lt.
  - apply (StronglySorted_merge_sort Z.le).
  - unfold sorted. rewrite merge_sort_Permutation. apply NoDup_elements.
Qed.

(** ** The coverage groups *)

Section groups.
Context (G : Graph) (X : Z).

Lemma record_center_node st c :
  c ∈ nodes G →
  record_center G X st (Some c)
  = Ok (<[c := sorted (reach G c X)]> st.1, st.2 ∪ reach G c X).
Proof. intros Hc. unfold record_center. by rewrite covered_nodes_node. Qed.

Lemma record_centers_inv cs : ∀ m0 s0 m s,
  for_each (record_center G X) cs (m0, s0) = Ok (m, s) →
  ∃ cs' : list Z, cs = Some <$> cs' ∧ (∀ c, c ∈ cs' → c ∈ nodes G) ∧
    s = s0 ∪ covered_by G X cs' ∧
    (∀ c, c ∈ cs' → m !! c = Some (sorted (reach G c X))) ∧
    (∀ c, c ∉ cs' → m !! c = m0 !! c).
Proof.
  induction cs as [|c cs IH] using rev_ind; intros m0 s0 m s Hrun.
  - simpl in Hrun. injection Hrun as <- <-. exists []. unfold covered_by. simpl.
    split; [done|]. split; [by intros c ?%elem_of_nil|]. split; [set_solver|].
    split; [by intros c ?%elem_of_nil|done].
  - rewrite for_each_snoc in Hrun.
    destruct (for_each (record_center G X) cs (m0, s0)) as [[m1 s1]| |] eqn:E;
      simpl in Hrun; [|done|done].
    destruct (IH _ _ _ _ E) as (cs' & -> & Hnodes & -> & Hin & Hout).
    destruct c as [c|]; simpl in Hrun; [|done].
    destruct (decide (c ∈ nodes G)) as [Hc|Hc].
    2:{ by rewrite covered_nodes_not_node in Hrun. }
    rewrite covered_nodes_node in Hrun by done. simpl in Hrun.
    injection Hrun as <- <-. exists (cs' ++ [c]).
    split; [by rewrite fmap_app|]. split; [|split; [|split]].
    + intros c' [?| ->%list_elem_of_singleton]%elem_of_app; auto.
    + unfold covered_by. rewrite fmap_app, union_list_app_L. simpl. set_solver.
    + intros c' Hc'. destruct (decide (c = c')) as [->|Hne].
      * apply lookup_insert_eq.
      * rewrite lookup_insert_ne by done. apply Hin. set_solver.
    + intros c' Hc'. rewrite lookup_insert_ne by set_solver. apply Hout. set_solver.
Qed.

Lemma record_centers_nodes (cs' : list Z) : ∀ m0 s0,
  (∀ c, c ∈ cs' → c ∈ nodes G) →
  ∃ m, for_each (record_center G X) (Some <$> cs') (m0, s0)
       = Ok (m, s0 ∪ covered_by G X cs').
Proof.
  induction cs' as [|c cs' IH]; intros m0 s0 Hnodes.
  - exists m0. unfold covered_by. simpl. by rewrite union_empty_r_L.
  - rewrite fmap_cons, for_each_cons.
    rewrite record_center_node by (apply Hnodes; set_solver).
    rewrite bind_Ok. cbn [fst snd].
    destruct (IH (<[c:=sorted (reach G c X)]> m0) (s0 ∪ reach G c X)) as [m Hm].
    { intros c' Hc'. apply Hnodes. set_solver. }
    exists m. rewrite Hm. unfold covered_by. rewrite fmap_cons. simpl.
    by rewrite union_assoc_L.
Qed.
End groups.

(** ** The greedy loop: selection, termination, coverage *)

Lemma size_list_to_set_le (l : list Z) :
  (size (list_to_set l : gset Z) ≤ length l)%nat.
Proof.
  induction l as [|x l IH]; [by rewrite list_to_set_nil, size_empty|].
  rewrite list_to_set_cons, size_union_alt, size_singleton. simpl.
  assert (size (list_to_set l ∖ {[x]} : gset Z) ≤ size (list_to_set l : gset Z))%nat.
  { apply subseteq_size. set_solver. }
  lia.
Qed.

(** C1: in an iteration of the greedy loop (radius at least 0, a
    non-empty [uncovered] set of nodes) the gain of every node of the graph
    is computed from its full reach set, and the center appended is the
    first node, in the order of [G.nodes()], among those of maximum gain:
    no node has a larger gain and every earlier node has a strictly
    smaller one.  Its gain set is what the iteration removes from
    [uncovered]. *)
Theorem greedy_iteration_takes_first_max
    (G : Graph) (X : Z) (fuel : nat) (U : gset Z) (cs : list (option Z)) :
  0 <= X → U ≠ ∅ → U ⊆ list_to_set (nodes G) →
  (∀ u, u ∈ nodes G → covered_nodes G u X = Ok (reach G u X)) ∧
  ∃ v, first_of_max_gain G X U v ∧
       best_choice G X U = Ok (Some v, reach G v X ∩ U) ∧
       while_uncovered (S fuel) G X U cs
       = while_uncovered fuel G X (U ∖ (reach G v X ∩ U)) (cs ++ [Some v]).
Proof.
  intros HX Hne Hsub. split.
  - intros u Hu. by apply covered_nodes_node.
  - destruct (iteration G X HX U Hne Hsub) as (v & Hv & _ & Hbest).
    exists v. split; [done|]. split; [done|].
    simpl. rewrite decide_False by done. by rewrite Hbest.
Qed.

Lemma greedy_iteration_takes_first_max_witness :
  (∀ u, u ∈ nodes chain5 →
     covered_nodes chain5 u 1
     = Ok (reach chain5 u 1)) ∧
  ∃ v, first_of_max_gain chain5 1 {[4; 5]} v ∧
       best_choice chain5 1 {[4; 5]}
       = Ok (Some v, reach chain5 v 1 ∩ {[4; 5]}) ∧
       while_uncovered 1 chain5 1 {[4; 5]} [Some 2]
       = while_uncovered 0 chain5 1
           ({[4; 5]} ∖ (reach chain5 v 1 ∩ {[4; 5]}))
           ([Some 2] ++ [Some v]).
Proof.
  apply (greedy_iteration_takes_first_max chain5 1 0 {[4; 5]} [Some 2]).
  - lia.
  - apply (bool_decide_unpack _). vm_compute. exact I.
  - apply (bool_decide_unpack _). vm_compute. exact I.
Defined.

(** The whole loop, started as [greedy_center_placement] starts it. *)
Lemma greedy_ends G X :
  0 <= X →
  ∃ new : list Z,
    (length new ≤ length (nodes G))%nat ∧ (∀ c, c ∈ new → c ∈ nodes G) ∧
    list_to_set (nodes G) ⊆ covered_by G X new ∧
    ∀ fuel, (length (nodes G) ≤ fuel)%nat →
      greedy_center_placement fuel G X = Ok (Some <$> new).
Proof.
  intros HX. pose proof (size_list_to_set_le (nodes G)) as Hsize.
  destruct (while_uncovered_ends G X HX (length (nodes G)) (list_to_set (nodes G)))
    as (new & Hlen & Hnodes & Hcov & Hrun); [done|done|].
  exists new. split; [lia|]. split; [done|]. split; [done|].
  intros fuel Hfuel. unfold greedy_center_placement. rewrite Hrun by lia. done.
Qed.

(** C2: for every graph, connected or not, and every radius at least 0,
    the placement returns, and the nodes left after removing the union of
    the chosen centers' full reach sets form the empty set. *)
Theorem final_uncovered_empty (G : Graph) (X : Z) :
  0 <= X →
  ∃ cs m covd,
    (∀ fuel, (length (nodes G) ≤ fuel)%nat → greedy_center_placement fuel G X = Ok cs) ∧
    coverage_groups G X cs = Ok (m, covd) ∧
    list_to_set (nodes G) ∖ covd = ∅.
Proof.
  intros HX. destruct (greedy_ends G X HX) as (new & _ & Hnodes & Hcov & Hrun).
  destruct (record_centers_nodes G X new ∅ ∅ Hnodes) as [m Hm].
  exists (Some <$> new), m, (∅ ∪ covered_by G X new).
  split; [done|]. split; [done|]. set_solver.
Qed.

Lemma final_uncovered_empty_witness :
  ∃ cs m covd,
    (∀ fuel, (length (nodes chain5) ≤ fuel)%nat →
       greedy_center_placement fuel chain5 0 = Ok cs) ∧
    coverage_groups chain5 0 cs = Ok (m, covd) ∧
    list_to_set (nodes chain5) ∖ covd = ∅.
Proof. apply (final_uncovered_empty chain5 0). lia. Defined.

(** C3: for a graph of N nodes and a radius at least 0 the loop
    terminates: every node reaches itself, so an uncovered node has a gain
    of at least 1; an iteration from a non-empty [uncovered] set of nodes
    leaves a strictly smaller one; and the loop returns after at most N
    iterations, each of which appends one center. *)
Theorem greedy_terminates_within_n (G : Graph) (X : Z) :
  0 <= X →
  (∀ U v, v ∈ U → v ∈ reach G v X ∧ (1 ≤ gain G X U v)%nat) ∧
  (∀ U, U ≠ ∅ → U ⊆ list_to_set (nodes G) →
     ∃ best, best_choice G X U = Ok best ∧ (size (U ∖ best.2) < size U)%nat) ∧
  ∃ cs, (length cs ≤ length (nodes G))%nat ∧
    ∀ fuel, (length (nodes G) ≤ fuel)%nat → greedy_center_placement fuel G X = Ok cs.
Proof.
  intros HX. split; [|split].
  - intros U v Hv. split; [by apply reach_self|].
    pose proof (gain_uncovered G X HX U v Hv). lia.
  - intros U Hne Hsub. destruct (iteration G X HX U Hne Hsub) as (v & _ & Hpos & Hbest).
    eexists. split; [exact Hbest|]. simpl. by apply iteration_shrinks.
  - destruct (greedy_ends G X HX) as (new & Hlen & _ & _ & Hrun).
    exists (Some <$> new). split; [by rewrite length_fmap|done].
Qed.

Lemma greedy_terminates_within_n_witness :
  (∀ U v, v ∈ U → v ∈ reach chain3 v 2 ∧ (1 ≤ gain chain3 2 U v)%nat) ∧
  (∀ U, U ≠ ∅ → U ⊆ list_to_set (nodes chain3) →
     ∃ best, best_choice chain3 2 U = Ok best ∧
             (size (U ∖ best.2) < size U)%nat) ∧
  ∃ cs, (length cs ≤ length (nodes chain3))%nat ∧
    ∀ fuel, (length (nodes chain3) ≤ fuel)%nat →
      greedy_center_placement fuel chain3 2 = Ok cs.
Proof. apply (greedy_terminates_within_n chain3 2). lia. Defined.

(** C4: the list reported for a center [c] holds exactly the nodes of
    [covered_nodes(G, c, X)], the full reach set of [c] (the [uncovered]
    set of the selection plays no part), in strictly ascending order. *)
Theorem coverage_map_full_and_sorted
    (G : Graph) (X : Z) (cs : list (option Z)) (m : gmap Z (list Z))
    (covd : gset Z) (c : Z) :
  coverage_groups G X cs = Ok (m, covd) → Some c ∈ cs →
  ∃ l, m !! c = Some l ∧
       covered_nodes G c X = Ok (reach G c X) ∧
       (∀ n, n ∈ l ↔ n ∈ reach G c X) ∧
       StronglySorted Z.lt l.
Proof.
  intros Hrun Hc. unfold coverage_groups in Hrun.
  apply record_centers_inv in Hrun as (cs' & -> & Hnodes & _ & Hin & _).
  apply list_elem_of_fmap in Hc as (c' & [= <-] & Hc).
  exists (sorted (reach G c X)). split; [by apply Hin|].
  split; [by apply covered_nodes_node, Hnodes|].
  split; [apply sorted_elem_of|apply sorted_ascending].
Qed.

(** On the chain of five with radius 1 the second center, 4, is chosen for
    its gain set {4, 5} and reported with its full reach [3; 4; 5]. *)
Lemma coverage_map_full_and_sorted_witness :
  ∃ l, (<[4 := [3; 4; 5]]> (<[2 := [1; 2; 3]]> ∅) : gmap Z (list Z)) !! 4 = Some l ∧
       covered_nodes chain5 4 1
       = Ok (reach chain5 4 1) ∧
       (∀ n, n ∈ l ↔ n ∈ reach chain5 4 1) ∧
       StronglySorted Z.lt l.
Proof.
  apply (coverage_map_full_and_sorted chain5 1 [Some 2; Some 4]
           _ (list_to_set [1; 2; 3; 4; 5]) 4).
  - vm_compute. reflexivity.
  - apply (bool_decide_unpack _). vm_compute. exact I.
Defined.

(** C5, as the code has it: the placement does not validate the radius
    and raises nothing for a negative one.  Every gain is then 0, so an
    iteration chooses no node ([None], with an empty cover); on a graph
    with nodes the loop never returns, and on the empty graph it returns
    the empty list at once. *)
Theorem negative_radius_never_rejected (G : Graph) (X : Z) :
  X < 0 →
  (∀ U, best_choice G X U = Ok (None, ∅)) ∧
  (nodes G ≠ [] → ∀ fuel, greedy_center_placement fuel G X = OutOfFuel) ∧
  (nodes G = [] → ∀ fuel, greedy_center_placement fuel G X = Ok []).
Proof.
  intros HX. split; [|split].
  - intros U. by apply best_choice_negative.
  - intros Hne fuel. apply while_uncovered_negative; [done|].
    destruct (nodes G) as [|v l]; [done|]. set_solver.
  - intros Hnil fuel. unfold greedy_center_placement. rewrite Hnil.
    destruct fuel; simpl; by rewrite decide_True.
Qed.

Lemma negative_radius_never_rejected_witness :
  (∀ U, best_choice chain2 (-1) U = Ok (None, ∅)) ∧
  (nodes chain2 ≠ [] →
     ∀ fuel, greedy_center_placement fuel chain2 (-1) = OutOfFuel) ∧
  (nodes chain2 = [] →
     ∀ fuel, greedy_center_placement fuel chain2 (-1) = Ok []).
Proof. apply (negative_radius_never_rejected chain2 (-1)). lia. Defined.

(** The chain of two locations with radius -1: no exception is ever
    raised, whatever the number of iterations allowed, and the handler
    shows neither a summary nor an error. *)
Lemma negative_radius_counterexample :
  ¬ (∃ fuel e, greedy_center_placement fuel chain2 (-1) = Raise e) ∧
  best_choice chain2 (-1) (list_to_set (nodes chain2)) = Ok (None, ∅) ∧
  compute_centers 100 2 [3; 4] (-1) = Unfinished.
Proof.
  split; [|split].
  - intros (fuel & e & Hraise).
    unfold greedy_center_placement in Hraise.
    rewrite while_uncovered_negative in Hraise; [done|lia|].
    apply (bool_decide_unpack _). vm_compute. exact I.
  - by apply best_choice_negative.
  - vm_compute. reflexivity.
Qed.

(** ** The chain the handler builds *)

Lemma alist_get_snoc {V} (d : list (Z * V)) k k' v :
  alist_get k (d ++ [(k', v)]) =
  match alist_get k d with
  | Some x => Some x
  | None => if decide (k' = k) then Some v else None
  end.
Proof.
  induction d as [|[k0 v0] d IH]; simpl; [done|].
  destruct (decide (k0 = k)); [done|apply IH].
Qed.

Lemma alist_get_None {V} (d : list (Z * V)) k : k ∉ d.*1 → alist_get k d = None.
Proof.
  induction d as [|[k0 v0] d IH]; simpl; [done|]. intros Hk.
  apply not_elem_of_cons in Hk as [Hne Hk]. rewrite decide_False by done. auto.
Qed.

Section chain_construction.
Context (population_list : list Z).

Lemma add_location_located (k : nat) G p :
  located population_list (Z.of_nat k) G →
  population_list !! k = Some p →
  add_location population_list G (1 + Z.of_nat k) = Ok (add_node (1 + Z.of_nat k) p G)
  ∧ located population_list (Z.of_nat (S k)) (add_node (1 + Z.of_nat k) p G).
Proof.
  intros (Hnodes & Hpop & Hadj) Hp.
  assert (1 + Z.of_nat k ∉ nodes G) as Hfresh.
  { rewrite Hnodes, elem_of_seqZ. lia. }
  split.
  { unfold add_location. replace (Z.to_nat (1 + Z.of_nat k - 1)) with k by lia.
    by rewrite Hp. }
  unfold add_node, has_node. rewrite bool_decide_eq_false_2 by done.
  split; [|split]; simpl.
  - unfold nodes. simpl. rewrite fmap_app. fold (nodes G).
    rewrite Hnodes, seqZ_S. done.
  - intros i q Hi Hq. rewrite alist_get_snoc.
    destruct (decide (i = 1 + Z.of_nat k)) as [->|Hne].
    + rewrite alist_get_None by done. rewrite decide_True by done.
      replace (Z.to_nat (1 + Z.of_nat k - 1)) with k in Hq by lia. congruence.
    + rewrite (Hpop i q) by (done || lia). done.
  - intros i. destruct (decide (i = 1 + Z.of_nat k)) as [->|Hne].
    + rewrite lookup_insert_eq. rewrite bool_decide_eq_true_2 by lia. done.
    + rewrite lookup_insert_ne by done. rewrite Hadj.
      repeat case_bool_decide; try lia; done.
Qed.

Lemma add_locations (k : nat) :
  (k ≤ length population_list)%nat →
  ∃ G, for_each (add_location population_list) (seqZ 1 (Z.of_nat k)) empty_graph = Ok G
       ∧ located population_list (Z.of_nat k) G.
Proof.
  induction k as [|k IH]; intros Hk.
  - exists empty_graph. split; [done|]. split; [done|]. split.
    + intros i p Hi. lia.
    + intros i. simpl. rewrite lookup_empty. by rewrite bool_decide_eq_false_2 by lia.
  - destruct IH as (G & Hrun & HG); [lia|].
    destruct (lookup_lt_is_Some_2 population_list k) as [p Hp]; [lia|].
    destruct (add_location_located k G p HG Hp) as [Hadd HG'].
    exists (add_node (1 + Z.of_nat k) p G). split; [|done].
    rewrite seqZ_S, for_each_snoc, Hrun. simpl. done.
Qed.
End chain_construction.

Lemma ensure_node_node G n : n ∈ nodes G → ensure_node n G = G.
Proof.
  intros Hn. unfold ensure_node, has_node. by rewrite bool_decide_eq_true_2.
Qed.

Ltac chain_cases :=
  repeat case_bool_decide; repeat case_decide; try lia; try done;
  repeat match goal with
         | H : _ ∈ [] |- _ => by apply elem_of_nil in H
         | H : _ ∈ [_] |- _ => apply list_elem_of_singleton in H
         end;
  try lia.

Lemma add_link_linked N (k : nat) G :
  Z.of_nat k < N - 1 → nodes G = seqZ 1 N → linked N (Z.of_nat k) (adj G) →
  nodes (add_link G (1 + Z.of_nat k)) = seqZ 1 N ∧
  node_attr (add_link G (1 + Z.of_nat k)) = node_attr G ∧
  linked N (Z.of_nat (S k)) (adj (add_link G (1 + Z.of_nat k))).
Proof.
  intros Hk Hnodes Hadj. unfold add_link, add_edge.
  rewrite (ensure_node_node G (1 + Z.of_nat k)) by (rewrite Hnodes, elem_of_seqZ; lia).
  rewrite (ensure_node_node G (1 + Z.of_nat k + 1)) by (rewrite Hnodes, elem_of_seqZ; lia).
  split; [done|]. split; [done|]. simpl.
  set (u := 1 + Z.of_nat k) in *.
  assert (adj G !! u = Some (if bool_decide (1 < u) then [u - 1] else [])) as Hu.
  { rewrite Hadj. repeat case_bool_decide; try lia; by rewrite ?app_nil_r. }
  assert (adj G !! (u + 1) = Some []) as Hu1.
  { rewrite Hadj. repeat case_bool_decide; try lia; done. }
  intros i. unfold add_nbr.
  destruct (decide (i = u + 1)) as [->|Hne1].
  - rewrite lookup_insert_eq. rewrite lookup_insert_ne by lia. rewrite Hu1.
    cbn [default from_option id]. chain_cases; simpl; do 2 f_equal; lia.
  - rewrite lookup_insert_ne by done.
    destruct (decide (i = u)) as [->|Hne].
    + rewrite lookup_insert_eq, Hu. cbn [default from_option id]. chain_cases.
    + rewrite lookup_insert_ne by done. rewrite Hadj.
      repeat case_bool_decide; try lia; done.
Qed.

Lemma add_links N (k : nat) G :
  Z.of_nat k <= N - 1 → nodes G = seqZ 1 N → linked N 0 (adj G) →
  nodes (foldl add_link G (seqZ 1 (Z.of_nat k))) = seqZ 1 N ∧
  node_attr (foldl add_link G (seqZ 1 (Z.of_nat k))) = node_attr G ∧
  linked N (Z.of_nat k) (adj (foldl add_link G (seqZ 1 (Z.of_nat k)))).
Proof.
  intros Hk Hnodes Hadj. induction k as [|k IH]; [done|].
  destruct IH as (IH1 & IH2 & IH3); [lia|].
  rewrite seqZ_S, foldl_snoc.
  destruct (add_link_linked N k _ ltac:(lia) IH1 IH3) as (H1 & H2 & H3).
  split; [done|]. split; [congruence|done].
Qed.

(** The chain the handler builds for [N] populations: nodes 1..N in
    order, each with its population, and each adjacent to its
    predecessor and successor. *)
Lemma build_chain_shape N population_list :
  Z.of_nat (length population_list) = N →
  ∃ G, build_chain N population_list = Ok G ∧
    nodes G = seqZ 1 N ∧
    (∀ i p, 1 <= i <= N → population_list !! Z.to_nat (i - 1) = Some p →
       population G i = Ok p) ∧
    (∀ i, adj G !! i = if bool_decide (1 <= i <= N) then Some (nbrs N i) else None).
Proof.
  intros HN. destruct (add_locations population_list (length population_list))
    as (G0 & Hrun & Hnodes & Hpop & Hadj); [done|].
  rewrite HN in *. unfold build_chain. rewrite Hrun. simpl.
  eexists. split; [done|].
  destruct (decide (N = 0)) as [->|HN0].
  { simpl. split; [done|]. split; [intros; lia|]. intros i. rewrite Hadj.
    by rewrite !bool_decide_eq_false_2 by lia. }
  assert (linked N 0 (adj G0)) as Hl0.
  { intros i. rewrite Hadj. repeat case_bool_decide; try lia; done. }
  destruct (add_links N (Z.to_nat (N - 1)) G0) as (H1 & H2 & H3); [lia|done|done|].
  rewrite Z2Nat.id in * by lia.
  split; [done|]. split.
  - intros i p Hi Hp. unfold population. rewrite H2. by rewrite (Hpop i p).
  - intros i. rewrite H3. unfold nbrs. repeat case_bool_decide; try lia; done.
Qed.

(** The example chains are what the construction returns. *)
Lemma example_chains_built :
  build_chain 2 [3; 4] = Ok chain2 ∧
  build_chain 3 [3; 0; 7] = Ok chain3 ∧
  build_chain 5 [10; 10; 10; 10; 10] = Ok chain5.
Proof. repeat split; vm_compute; reflexivity. Qed.

(** ** Distances on a chain *)

Section chain_search.
Context (N : Z) (a : gmap Z (list Z)).
Context (Ha : ∀ i, a !! i = if bool_decide (1 <= i <= N) then Some (nbrs N i) else None).

Lemma chain_adj_of v x :
  x ∈ adj_of a v ↔ 1 <= v <= N ∧ 1 <= x <= N ∧ (x = v - 1 ∨ x = v + 1).
Proof.
  unfold adj_of. rewrite Ha. unfold nbrs.
  repeat case_bool_decide; simpl;
    rewrite ?elem_of_cons, ?elem_of_nil; lia.
Qed.

Lemma chain_size : size a = Z.to_nat N.
Proof.
  rewrite <- size_dom, <- (length_seqZ 1 N).
  rewrite <- (size_list_to_set (C := gset Z)) by apply NoDup_seqZ.
  f_equal. apply set_eq. intros i.
  rewrite elem_of_dom, elem_of_list_to_set, elem_of_seqZ, Ha.
  case_bool_decide; split; intros H'; try lia; try done; by destruct H'.
Qed.

Context (c : Z) (Hc : 1 <= c <= N).

Lemma chain_front_start : chain_front N c 0 {[c := 0]} [c].
Proof.
  split.
  - intros x d. rewrite lookup_singleton_Some. lia.
  - intros x. rewrite list_elem_of_singleton. lia.
Qed.

Lemma chain_front_round k seen F st :
  0 <= k → chain_front N c k seen F →
  sweeps (k + 1) (λ x, ∃ v, v ∈ F ∧ x ∈ adj_of a v) (seen, []) st →
  chain_front N c (k + 1) st.1 st.2.
Proof.
  intros Hk [Hseen HF] [H1 H2]. simpl in *.
  assert (∀ x, seen !! x = None ↔ ¬ (1 <= x <= N ∧ Z.abs (x - c) <= k)) as Hnone.
  { intros x. destruct (seen !! x) as [d|] eqn:E.
    - apply Hseen in E. split; [done|]. intros Hn. exfalso. apply Hn. lia.
    - split; [|done]. intros _ Hx.
      assert (seen !! x = Some (Z.abs (x - c))) as E' by (apply Hseen; lia).
      congruence. }
  assert (∀ x, (∃ v, v ∈ F ∧ x ∈ adj_of a v) ↔
               1 <= x <= N ∧ (Z.abs (x - 1 - c) = k ∧ 1 <= x - 1 ∨
                              Z.abs (x + 1 - c) = k ∧ x + 1 <= N)) as Hcand.
  { intros x. split.
    - intros (v & Hv%HF & Hx%chain_adj_of). lia.
    - intros (Hx & [[Hd Hr]|[Hd Hr]]).
      + exists (x - 1). rewrite HF, chain_adj_of. lia.
      + exists (x + 1). rewrite HF, chain_adj_of. lia. }
  split.
  - intros x d. rewrite H1, Hseen, Hnone, Hcand. lia.
  - intros x. rewrite H2, Hnone, Hcand, elem_of_nil. lia.
Qed.

Lemma chain_bfs_levels fuel : ∀ k seen F,
  0 <= k → chain_front N c k seen F →
  ∀ x d, bfs_levels fuel a seen F k !! x = Some d ↔
         1 <= x <= N ∧ d = Z.abs (x - c) ∧ d <= k + Z.of_nat fuel.
Proof.
  induction fuel as [|fuel IH]; intros k seen F Hk HI x d.
  - simpl. destruct HI as [Hseen _]. rewrite Hseen. lia.
  - simpl. destruct F as [|v F].
    + destruct HI as [Hseen HF]. rewrite Hseen.
      pose proof (HF (c + k)) as H1. pose proof (HF (c - k)) as H2.
      rewrite elem_of_nil in H1, H2. lia.
    + rewrite IH; [lia|lia|].
      eapply chain_front_round; [done|exact HI|]. apply round_sweeps.
Qed.

Lemma chain_distances x d :
  bfs_levels (size a) a {[c := 0]} [c] 0 !! x = Some d ↔
  1 <= x <= N ∧ d = Z.abs (x - c).
Proof.
  rewrite (chain_bfs_levels _ 0 _ _ ltac:(lia) chain_front_start).
  rewrite chain_size. lia.
Qed.
End chain_search.

(** On the chain, a node reaches the nodes at most [X] positions away. *)
Lemma chain_reach G N c X n :
  (∀ i, adj G !! i = if bool_decide (1 <= i <= N) then Some (nbrs N i) else None) →
  1 <= c <= N →
  n ∈ reach G c X ↔ 1 <= n <= N ∧ Z.abs (n - c) <= X.
Proof.
  intros Ha Hc. rewrite elem_of_reach. split.
  - intros (d & Hd & Hle). apply (chain_distances N (adj G) Ha c Hc) in Hd. lia.
  - intros [Hn Hd]. exists (Z.abs (n - c)). split; [|done].
    by apply (chain_distances N (adj G) Ha c Hc).
Qed.

(** ** Population sums *)

Lemma foldl_add_Zsum l acc : foldl Z.add acc l = acc + Zsum l.
Proof.
  revert acc. induction l as [|x l IH]; intros acc; simpl; [lia|].
  rewrite IH. lia.
Qed.

Lemma sum_Zsum l : sum l = Zsum l.
Proof. unfold sum. by rewrite foldl_add_Zsum. Qed.

Lemma Zsum_app l1 l2 : Zsum (l1 ++ l2) = Zsum l1 + Zsum l2.
Proof. induction l1 as [|x l1 IH]; simpl; lia. Qed.

Lemma Zsum_Permutation l1 l2 : l1 ≡ₚ l2 → Zsum l1 = Zsum l2.
Proof. induction 1; simpl; lia. Qed.

Lemma entered_seqZ population_list :
  entered population_list <$> seqZ 1 (Z.of_nat (length population_list))
  = population_list.
Proof.
  apply list_eq. intros i. rewrite list_lookup_fmap.
  destruct (decide (i < length population_list)%nat) as [Hi|Hi].
  - rewrite lookup_seqZ_lt by lia. simpl. unfold entered.
    replace (Z.to_nat (1 + Z.of_nat i - 1)) with i by lia.
    destruct (lookup_lt_is_Some_2 population_list i Hi) as [p Hp].
    by rewrite Hp.
  - rewrite lookup_seqZ_ge by lia. simpl. symmetry. apply lookup_ge_None. lia.
Qed.

Section population_sums.
Context (G : Graph) (f : Z → Z).

Lemma sum_populations l : ∀ acc,
  (∀ n, n ∈ l → population G n = Ok (f n)) →
  for_each (λ acc n, p ← population G n; Ok (acc + p)) l acc
  = Ok (acc + Zsum (f <$> l)).
Proof.
  induction l as [|n l IH]; intros acc Hl.
  - simpl. f_equal. unfold Zsum. simpl. lia.
  - rewrite for_each_cons, Hl by constructor. rewrite !bind_Ok, IH.
    + rewrite fmap_cons. unfold Zsum. simpl. f_equal. lia.
    + intros n' Hn'. apply Hl. by constructor.
Qed.

Lemma population_of_known (s : gset Z) :
  (∀ n, n ∈ s → population G n = Ok (f n)) →
  population_of G s = Ok (Zsum (f <$> elements s)).
Proof.
  intros Hs. unfold population_of. rewrite sum_populations.
  - f_equal.
  - intros n Hn. apply Hs. by apply elem_of_elements.
Qed.

Lemma Zsum_split (s t : gset Z) :
  t ⊆ s →
  Zsum (f <$> elements t) + Zsum (f <$> elements (s ∖ t)) = Zsum (f <$> elements s).
Proof.
  intros Hts. rewrite <- Zsum_app, <- fmap_app. apply Zsum_Permutation, fmap_Permutation.
  rewrite <- elements_disj_union by set_solver.
  apply elements_proper. intros x. rewrite elem_of_union, elem_of_difference.
  destruct (decide (x ∈ t)); set_solver.
Qed.
End population_sums.

(** ** The handler on a well-formed input *)

Section handler.
Context (N : Z) (population_list : list Z) (X : Z).
Context (HN : Z.of_nat (length population_list) = N).

(** What the construction and the reporting stage do for any list of
    nodes as centers. *)
Lemma chain_report :
  ∃ G, build_chain N population_list = Ok G ∧ nodes G = seqZ 1 N ∧
    (∀ c n, 1 <= c <= N → n ∈ reach G c X ↔ 1 <= n <= N ∧ Z.abs (n - c) <= X) ∧
    (∀ s : gset Z, s ⊆ list_to_set (nodes G) →
       population_of G s = Ok (Zsum (entered population_list <$> elements s))) ∧
    Zsum (entered population_list <$> elements (list_to_set (nodes G) : gset Z))
    = sum population_list.
Proof.
  destruct (build_chain_shape N population_list HN) as (G & HG & Hnodes & Hpop & Hadj).
  exists G. split; [done|]. split; [done|]. split; [|split].
  - intros c n Hc. by apply (chain_reach G N).
  - intros s Hs. apply population_of_known. intros n Hn.
    apply Hs in Hn. rewrite elem_of_list_to_set, Hnodes, elem_of_seqZ in Hn.
    destruct (lookup_lt_is_Some_2 population_list (Z.to_nat (n - 1))) as [p Hp]; [lia|].
    unfold entered. rewrite Hp. simpl. apply Hpop; [lia|done].
  - rewrite sum_Zsum. rewrite <- (entered_seqZ population_list) at 2.
    apply Zsum_Permutation, fmap_Permutation. rewrite Hnodes, HN.
    apply elements_list_to_set, NoDup_seqZ.
Qed.

(** With a radius of at least 0 and enough iterations everything up to
    the division succeeds, and every node is covered. *)
Lemma chain_run fuel :
  0 <= X → (Z.to_nat N ≤ fuel)%nat →
  ∃ G cs m,
    build_chain N population_list = Ok G ∧
    greedy_center_placement fuel G X = Ok cs ∧
    coverage_groups G X cs = Ok (m, list_to_set (nodes G)) ∧
    population_of G (list_to_set (nodes G)) = Ok (sum population_list).
Proof.
  intros HX Hfuel.
  destruct chain_report as (G & HG & Hnodes & Hreach & Hpop & Hsum).
  destruct (greedy_ends G X HX) as (new & _ & Hin & Hcov & Hrun).
  destruct (record_centers_nodes G X new ∅ ∅ Hin) as [m Hm].
  assert (∅ ∪ covered_by G X new = list_to_set (nodes G)) as Hall.
  { apply set_eq. intros n. split; [|set_solver].
    rewrite elem_of_union, elem_of_list_to_set. intros [?%elem_of_empty|Hn]; [done|].
    unfold covered_by in Hn. apply elem_of_union_list in Hn as (s & Hs & Hn).
    apply list_elem_of_fmap in Hs as (c & -> & Hc). apply Hin in Hc.
    rewrite Hnodes, elem_of_seqZ in *. apply Hreach in Hn; lia. }
  exists G, (Some <$> new), m. split; [done|]. split; [|split].
  - apply Hrun. rewrite Hnodes, length_seqZ. done.
  - unfold coverage_groups. by rewrite Hm, Hall.
  - rewrite Hpop by done. by rewrite Hsum.
Qed.
End handler.

Lemma placement_stages fuel N population_list X G cs cov :
  build_chain N population_list = Ok G →
  greedy_center_placement fuel G X = Ok cs →
  coverage_groups G X cs = Ok cov →
  placement fuel N population_list X = statistics G population_list cs cov.
Proof.
  intros HG Hcs Hcov. unfold placement.
  by rewrite HG, bind_Ok, Hcs, bind_Ok, Hcov, bind_Ok.
Qed.

Lemma placement_inv fuel N population_list X r :
  placement fuel N population_list X = Ok r →
  ∃ G cs cov,
    build_chain N population_list = Ok G ∧
    greedy_center_placement fuel G X = Ok cs ∧
    coverage_groups G X cs = Ok cov ∧
    statistics G population_list cs cov = Ok r.
Proof.
  unfold placement. intros Hr.
  destruct (build_chain N population_list) as [G| |] eqn:HG;
    [rewrite bind_Ok in Hr|done|done].
  destruct (greedy_center_placement fuel G X) as [cs| |] eqn:Hcs;
    [rewrite bind_Ok in Hr|done|done].
  destruct (coverage_groups G X cs) as [cov| |] eqn:Hcov;
    [rewrite bind_Ok in Hr|done|done].
  exists G, cs, cov. repeat split; assumption || reflexivity.
Qed.

Lemma compute_centers_Summary fuel N population_list X r :
  compute_centers fuel N population_list X = Summary r ↔
  Z.of_nat (length population_list) = N ∧ placement fuel N population_list X = Ok r.
Proof.
  unfold compute_centers. case_decide as Hlen.
  - split; [done|]. intros [? _]. done.
  - destruct (placement fuel N population_list X) as [r'| |]; split;
      try done; try (by intros [_ ?]).
    + intros [= ->]. done.
    + intros [_ [= ->]]. done.
Qed.

(** C6, as the code has it: when the populations sum to 0 (all zero in
    particular) the division raises, the handler's [except] clause
    catches it, and the page shows the error message; no percentage, and
    nothing else of the summary, is reported. *)
Theorem zero_population_shows_error
    (fuel : nat) (N : Z) (population_list : list Z) (X : Z) :
  Z.of_nat (length population_list) = N → sum population_list = 0 →
  0 <= X → (Z.to_nat N ≤ fuel)%nat →
  compute_centers fuel N population_list X = InvalidInput ZeroDivisionError.
Proof.
  intros HN Hzero HX Hfuel.
  destruct (chain_run N population_list X HN fuel HX Hfuel)
    as (G & cs & m & HG & Hcs & Hcov & Hpop).
  unfold compute_centers. rewrite decide_False by (intros Hne; by apply Hne).
  rewrite (placement_stages _ _ _ _ _ _ _ HG Hcs Hcov).
  unfold statistics. simpl. rewrite Hpop. simpl.
  unfold true_div. rewrite decide_True by done. done.
Qed.

Lemma zero_population_shows_error_witness :
  compute_centers 2 2 [0; 0] 1 = InvalidInput ZeroDivisionError.
Proof.
  apply (zero_population_shows_error 2 2 [0; 0] 1); [reflexivity|reflexivity|lia|lia].
Defined.

(** Two locations with population 0 and radius 1: the page shows the
    error message for [ZeroDivisionError], and no number of iterations
    makes it show a summary. *)
Lemma zero_population_counterexample :
  compute_centers 2 2 [0; 0] 1 = InvalidInput ZeroDivisionError ∧
  ¬ (∃ fuel r, compute_centers fuel 2 [0; 0] 1 = Summary r).
Proof.
  split; [vm_compute; reflexivity|].
  intros (fuel & r & Hr). destruct fuel as [|[|fuel]]; [by vm_compute in Hr..|].
  destruct (chain_run 2 [0; 0] 1 eq_refl (S (S fuel))) as (G & cs & m & HG & Hcs & Hcov & Hpop);
    [lia|lia|].
  apply compute_centers_Summary in Hr as [_ Hr].
  rewrite (placement_stages _ _ _ _ _ _ _ HG Hcs Hcov) in Hr.
  unfold statistics in Hr. simpl in Hr. rewrite Hpop in Hr. done.
Qed.

Lemma compute_centers_more_fuel fuel fuel' N population_list X r :
  (fuel ≤ fuel')%nat →
  compute_centers fuel N population_list X = Summary r →
  compute_centers fuel' N population_list X = Summary r.
Proof.
  intros Hle. rewrite !compute_centers_Summary. intros [HN Hr]. split; [done|].
  apply placement_inv in Hr as (G & cs & cov & HG & Hcs & Hcov & Hr).
  rewrite (placement_stages _ _ _ _ G cs cov); try done.
  by apply (while_uncovered_more_fuel G X fuel fuel').
Qed.

(** The statistics of any coverage set made of nodes of the chain add up. *)
Lemma statistics_conserve N population_list G cs cov r :
  Z.of_nat (length population_list) = N →
  build_chain N population_list = Ok G →
  cov.2 ⊆ list_to_set (nodes G) →
  statistics G population_list cs cov = Ok r →
  ∃ pu, population_of G (uncovered_final r) = Ok pu ∧
        covered_population r + pu = total_population r.
Proof.
  intros HN HG Hsub Hr.
  destruct (chain_report N population_list 0 HN) as (G' & HG' & _ & _ & Hpop & Hsum).
  assert (G' = G) as -> by congruence.
  unfold statistics in Hr. rewrite (Hpop cov.2 Hsub), bind_Ok in Hr.
  destruct (true_div _ _) as [q| |]; [rewrite bind_Ok in Hr|done|done].
  injection Hr as <-. simpl.
  eexists. split; [apply Hpop; set_solver|].
  rewrite <- Hsum. by apply Zsum_split.
Qed.

(** C7: whenever the handler reaches the summary, the covered
    population plus the population of the nodes left uncovered is the
    total population, as integers. *)
Theorem population_conservation
    (fuel : nat) (N : Z) (population_list : list Z) (X : Z) (r : PlacementResult) :
  compute_centers fuel N population_list X = Summary r →
  ∃ G pu, build_chain N population_list = Ok G ∧
          population_of G (uncovered_final r) = Ok pu ∧
          covered_population r + pu = total_population r.
Proof.
  intros [HN Hr]%compute_centers_Summary.
  apply placement_inv in Hr as (G & cs & [m covd] & HG & Hcs & Hcov & Hr).
  destruct (chain_report N population_list X HN) as (G' & HG' & Hnodes & Hreach & _).
  assert (G' = G) as -> by congruence.
  apply record_centers_inv in Hcov as (cs' & -> & Hin & -> & _).
  destruct (statistics_conserve N population_list G (Some <$> cs')
              (m, ∅ ∪ covered_by G X cs') r HN HG) as (pu & Hpu & Heq); [|done|].
  { simpl. intros n. rewrite elem_of_union, elem_of_list_to_set.
    intros [?%elem_of_empty|Hn]; [done|].
    unfold covered_by in Hn. apply elem_of_union_list in Hn as (s & Hs & Hn).
    apply list_elem_of_fmap in Hs as (c & -> & Hc). apply Hin in Hc.
    rewrite Hnodes, elem_of_seqZ in *. apply Hreach in Hn; lia. }
  exists G, pu. done.
Qed.

Lemma population_conservation_witness :
  ∃ G pu, build_chain 3 [3; 0; 7] = Ok G ∧
          population_of G ∅ = Ok pu ∧ 10 + pu = 10.
Proof.
  apply (population_conservation 3 3 [3; 0; 7] 1
           (mkResult [Some 2] {[2 := [1; 2; 3]]} (list_to_set [1; 2; 3]) ∅ 10 10
              (inject_Z 10 / inject_Z 10 * 100)%Q)).
  vm_compute. reflexivity.
Defined.

(** C10: for a non-empty chain whose populations sum to more than 0 and
    a radius of at least 0, the handler reaches the summary, the union of
    the centers' full reach sets is the whole node set, and the coverage
    percentage is 100. *)
Theorem coverage_is_always_full
    (fuel : nat) (N : Z) (population_list : list Z) (X : Z) :
  Z.of_nat (length population_list) = N → 0 < N → 0 < sum population_list →
  0 <= X → (Z.to_nat N ≤ fuel)%nat →
  ∃ r, compute_centers fuel N population_list X = Summary r ∧
       all_covered r = list_to_set (seqZ 1 N) ∧
       uncovered_final r = ∅ ∧
       covered_population r = total_population r ∧
       (coverage_percent r == 100)%Q.
Proof.
  intros HN Hpos Hsum HX Hfuel.
  destruct (chain_run N population_list X HN fuel HX Hfuel)
    as (G & cs & m & HG & Hcs & Hcov & Hpop).
  destruct (chain_report N population_list X HN) as (G' & HG' & Hnodes & _).
  assert (G' = G) as -> by congruence.
  eexists. split; [|split; [|split; [|split]]].
  - apply compute_centers_Summary. split; [done|].
    rewrite (placement_stages _ _ _ _ _ _ _ HG Hcs Hcov).
    unfold statistics. cbn [fst snd]. rewrite Hpop, bind_Ok.
    unfold true_div. rewrite decide_False by lia. rewrite bind_Ok. reflexivity.
  - simpl. by rewrite Hnodes.
  - simpl. set_solver.
  - reflexivity.
  - simpl. unfold Qdiv. rewrite Qmult_inv_r; [reflexivity|].
    unfold Qeq. simpl. lia.
Qed.

Lemma coverage_is_always_full_witness :
  ∃ r, compute_centers 3 3 [3; 0; 7] 2 = Summary r ∧
       all_covered r = list_to_set (seqZ 1 3) ∧
       uncovered_final r = ∅ ∧
       covered_population r = total_population r ∧
       (coverage_percent r == 100)%Q.
Proof.
  apply (coverage_is_always_full 3 3 [3; 0; 7] 2);
    [reflexivity|lia|reflexivity|lia|lia].
Defined.

(** C9: on the chain of 5 locations of population 10 with radius 1 the
    placement yields exactly two centers, 2 and then 4; their full reach
    sets [1; 2; 3] and [3; 4; 5] cover all five nodes, nothing is left
    uncovered, and the coverage is 100 percent. *)
Theorem chain_of_five_needs_two (fuel : nat) :
  (2 ≤ fuel)%nat →
  ∃ r, compute_centers fuel 5 [10; 10; 10; 10; 10] 1 = Summary r ∧
       centers r = [Some 2; Some 4] ∧
       length (centers r) = 2%nat ∧
       center_coverage_map r = <[4 := [3; 4; 5]]> {[2 := [1; 2; 3]]} ∧
       all_covered r = list_to_set [1; 2; 3; 4; 5] ∧
       uncovered_final r = ∅ ∧
       (coverage_percent r == 100)%Q.
Proof.
  intros Hfuel. eexists. split.
  - apply (compute_centers_more_fuel 2 fuel); [done|]. vm_compute. reflexivity.
  - cbn [centers center_coverage_map all_covered uncovered_final coverage_percent].
    repeat split; vm_compute; reflexivity.
Qed.

Lemma chain_of_five_needs_two_witness :
  ∃ r, compute_centers 5 5 [10; 10; 10; 10; 10] 1 = Summary r ∧
       centers r = [Some 2; Some 4] ∧
       length (centers r) = 2%nat ∧
       center_coverage_map r = <[4 := [3; 4; 5]]> {[2 := [1; 2; 3]]} ∧
       all_covered r = list_to_set [1; 2; 3; 4; 5] ∧
       uncovered_final r = ∅ ∧
       (coverage_percent r == 100)%Q.
Proof. apply (chain_of_five_needs_two 5). lia. Defined.

(** ** The number of centers on a chain *)

Lemma elem_of_span lo hi x : x ∈ span lo hi ↔ lo <= x <= hi.
Proof. unfold span. rewrite elem_of_list_to_set, elem_of_seqZ. lia. Qed.

Lemma size_span lo hi : size (span lo hi) = Z.to_nat (hi - lo + 1).
Proof.
  unfold span. rewrite size_list_to_set by apply NoDup_seqZ. apply length_seqZ.
Qed.

Lemma ceil_step w r :
  0 < w → 1 <= r → 1 + (Z.max 0 (r - w) + (w - 1)) / w = (r + (w - 1)) / w.
Proof.
  intros Hw Hr. destruct (Z_le_gt_dec w r) as [Hle|Hgt].
  - rewrite Z.max_r by lia.
    replace (r + (w - 1)) with (r - w + (w - 1) + 1 * w) by lia.
    rewrite Z_div_plus_full by lia. lia.
  - rewrite Z.max_l by lia. rewrite (Z.div_small (0 + (w - 1))) by lia.
    rewrite <- (Z.div_unique (r + (w - 1)) w 1 (r - 1)); lia.
Qed.

Lemma ceil_antitone r w1 w2 :
  0 <= r → 0 < w1 <= w2 → (r + (w2 - 1)) / w2 <= (r + (w1 - 1)) / w1.
Proof.
  intros Hr Hw. destruct (decide (r = 0)) as [->|Hne].
  - rewrite !Z.div_small by lia. done.
  - replace (r + (w2 - 1)) with (r - 1 + 1 * w2) by lia.
    replace (r + (w1 - 1)) with (r - 1 + 1 * w1) by lia.
    rewrite !Z_div_plus_full by lia.
    pose proof (Z.div_le_compat_l (r - 1) w1 w2). lia.
Qed.

Section chain_greedy.
Context (G : Graph) (N X : Z).
Context (Hnodes : nodes G = seqZ 1 N).
Context (Hreach : ∀ c n, 1 <= c <= N →
           n ∈ reach G c X ↔ 1 <= n <= N ∧ Z.abs (n - c) <= X).
Context (HX : 0 <= X).

Lemma chain_cover p v :
  1 <= p → 1 <= v <= N →
  reach G v X ∩ span p N = span (Z.max p (v - X)) (Z.min N (v + X)).
Proof.
  intros Hp Hv. apply set_eq. intros n.
  rewrite elem_of_intersection, !elem_of_span, (Hreach v n Hv). lia.
Qed.

Lemma chain_gain p v :
  1 <= p → 1 <= v <= N →
  Z.of_nat (gain G X (span p N) v)
  = Z.max 0 (Z.min N (v + X) - Z.max p (v - X) + 1).
Proof.
  intros Hp Hv. unfold gain. rewrite chain_cover, size_span by done. lia.
Qed.

Lemma chain_node_index v : 1 <= v <= N → nodes G !! Z.to_nat (v - 1) = Some v.
Proof. intros Hv. rewrite Hnodes. apply lookup_seqZ. lia. Qed.

Lemma chain_node_range v : v ∈ nodes G ↔ 1 <= v <= N.
Proof. rewrite Hnodes, elem_of_seqZ. lia. Qed.

(** The first node of maximum gain covers the next [2X + 1] uncovered
    locations, or all that are left. *)
Lemma chain_choice p v :
  1 <= p <= N → first_of_max_gain G X (span p N) v →
  reach G v X ∩ span p N = span p (Z.min N (p + 2 * X)).
Proof.
  intros Hp (i & Hi & Hmax & Hfirst).
  assert (1 <= v <= N ∧ i = Z.to_nat (v - 1)) as [Hv ->].
  { rewrite Hnodes in Hi. apply lookup_seqZ in Hi. lia. }
  rewrite chain_cover by lia.
  pose proof (chain_gain p v ltac:(lia) Hv) as Hgv.
  destruct (Z_le_gt_dec (p + 2 * X) N) as [Hroom|Hend].
  - (* a full window fits: the first maximum is at p + X *)
    pose proof (chain_gain p (p + X) ltac:(lia) ltac:(lia)) as Hgw.
    pose proof (Hmax (p + X) (proj2 (chain_node_range (p + X)) ltac:(lia))) as Hle.
    destruct (decide (p + X < v)) as [Hlater|Hnot].
    + pose proof (Hfirst (Z.to_nat (p + X - 1)) (p + X) ltac:(lia)
                    (chain_node_index (p + X) ltac:(lia))) as Hlt.
      lia.
    + f_equal; lia.
  - (* the rest fits in one window: a node of maximum gain covers it all *)
    pose proof (chain_gain p (Z.max 1 (N - X)) ltac:(lia) ltac:(lia)) as Hgw.
    pose proof (Hmax (Z.max 1 (N - X))
                  (proj2 (chain_node_range (Z.max 1 (N - X))) ltac:(lia))) as Hle.
    f_equal; lia.
Qed.

Lemma span_after p :
  span p N ∖ span p (Z.min N (p + 2 * X)) = span (p + (2 * X + 1)) N.
Proof.
  apply set_eq. intros n. rewrite elem_of_difference, !elem_of_span. lia.
Qed.

(** From the uncovered locations [p..N] the loop places one center per
    window of [2X + 1] locations. *)
Lemma chain_count (n : nat) : ∀ p,
  1 <= p → N - p + 1 <= Z.of_nat n →
  ∃ new : list (option Z),
    Z.of_nat (length new) = (Z.max 0 (N - p + 1) + (2 * X + 1 - 1)) / (2 * X + 1) ∧
    ∀ fuel cs, (n ≤ fuel)%nat →
      while_uncovered fuel G X (span p N) cs = Ok (cs ++ new).
Proof.
  induction n as [|n IH]; intros p Hp Hn.
  - exists []. split.
    + rewrite Z.max_l by lia. rewrite Z.div_small by lia. done.
    + intros fuel cs _. rewrite app_nil_r.
      assert (span p N = ∅) as ->.
      { apply set_eq. intros x. rewrite elem_of_span. set_solver by lia. }
      destruct fuel; simpl; by rewrite decide_True.
  - destruct (Z_le_gt_dec p N) as [Hle|Hgt].
    2:{ exists []. split.
        + rewrite Z.max_l by lia. rewrite Z.div_small by lia. done.
        + intros fuel cs _. rewrite app_nil_r.
          assert (span p N = ∅) as ->.
          { apply set_eq. intros x. rewrite elem_of_span. set_solver by lia. }
          destruct fuel; simpl; by rewrite decide_True. }
    assert (span p N ≠ ∅) as Hne.
    { intros E. assert (p ∈ span p N) as Hin by (apply elem_of_span; lia).
      rewrite E in Hin. by apply elem_of_empty in Hin. }
    assert (span p N ⊆ list_to_set (nodes G)) as Hsub.
    { intros x. rewrite elem_of_span, elem_of_list_to_set, chain_node_range. lia. }
    destruct (iteration G X HX (span p N) Hne Hsub) as (v & Hv & _ & Hbest).
    rewrite (chain_choice p v ltac:(lia) Hv) in Hbest.
    destruct (IH (p + (2 * X + 1))) as (new & Hlen & Hrun); [lia|lia|].
    exists (Some v :: new). split.
    + rewrite length_cons, Nat2Z.inj_succ, Hlen.
      rewrite (Z.max_r 0 (N - p + 1)) by lia.
      rewrite <- (ceil_step (2 * X + 1) (N - p + 1)) by lia.
      replace (N - (p + (2 * X + 1)) + 1) with (N - p + 1 - (2 * X + 1)) by lia. lia.
    + intros fuel cs Hfuel. destruct fuel as [|fuel]; [lia|].
      simpl. rewrite decide_False by done. rewrite Hbest. simpl.
      rewrite span_after, Hrun by lia. by rewrite <- app_assoc.
Qed.

Lemma span_all : list_to_set (nodes G) = span 1 N.
Proof. unfold span. rewrite Hnodes. do 2 f_equal. lia. Qed.

Lemma chain_centers :
  ∃ cs : list (option Z),
    Z.of_nat (length cs) = (Z.max 0 N + (2 * X + 1 - 1)) / (2 * X + 1) ∧
    ∀ fuel, (Z.to_nat N ≤ fuel)%nat → greedy_center_placement fuel G X = Ok cs.
Proof.
  destruct (chain_count (Z.to_nat N) 1) as (new & Hlen & Hrun); [lia|lia|].
  exists new. split.
  - rewrite Hlen. do 3 f_equal. lia.
  - intros fuel Hfuel. unfold greedy_center_placement. rewrite span_all.
    by rewrite Hrun.
Qed.
End chain_greedy.

(** C8, as the code has it: on the chains the handler builds, the number
    of centers placed does not grow when the radius grows. *)
Theorem chain_centers_antitone_in_radius
    (N : Z) (population_list : list Z) (X1 X2 : Z) :
  Z.of_nat (length population_list) = N → 0 <= X1 <= X2 →
  ∃ G cs1 cs2,
    build_chain N population_list = Ok G ∧
    (∀ fuel, (Z.to_nat N ≤ fuel)%nat → greedy_center_placement fuel G X1 = Ok cs1) ∧
    (∀ fuel, (Z.to_nat N ≤ fuel)%nat → greedy_center_placement fuel G X2 = Ok cs2) ∧
    (length cs2 ≤ length cs1)%nat.
Proof.
  intros HN HX.
  destruct (build_chain_shape N population_list HN) as (G & HG & Hnodes & _ & Hadj).
  destruct (chain_centers G N X1 Hnodes) as (cs1 & Hlen1 & Hrun1); [|lia|].
  { intros c n Hc. by apply (chain_reach G N). }
  destruct (chain_centers G N X2 Hnodes) as (cs2 & Hlen2 & Hrun2); [|lia|].
  { intros c n Hc. by apply (chain_reach G N). }
  exists G, cs1, cs2. split; [done|]. split; [done|]. split; [done|].
  pose proof (ceil_antitone (Z.max 0 N) (2 * X1 + 1) (2 * X2 + 1)). lia.
Qed.

Lemma chain_centers_antitone_in_radius_witness :
  ∃ G cs1 cs2,
    build_chain 5 [10; 10; 10; 10; 10] = Ok G ∧
    (∀ fuel, (Z.to_nat 5 ≤ fuel)%nat → greedy_center_placement fuel G 1 = Ok cs1) ∧
    (∀ fuel, (Z.to_nat 5 ≤ fuel)%nat → greedy_center_placement fuel G 2 = Ok cs2) ∧
    (length cs2 ≤ length cs1)%nat.
Proof.
  apply (chain_centers_antitone_in_radius 5 [10; 10; 10; 10; 10] 1 2);
    [reflexivity|lia].
Defined.

(** On [tree11] radius 2 needs two centers and radius 3 three: the first
    choice at radius 3, node 5, reaches nine nodes but leaves 6 and 10,
    which no single node reaches together. *)
Lemma larger_radius_more_centers :
  greedy_center_placement 11 tree11 2 = Ok [Some 2; Some 8] ∧
  greedy_center_placement 11 tree11 3 = Ok [Some 5; Some 1; Some 7].
Proof. split; vm_compute; reflexivity. Qed.

(** * Further properties of the code *)

(** ** Every center earns its place *)

Section fresh_centers.
Context (G : Graph) (X : Z) (HX : 0 <= X).

(** The invariant behind [each_adds_coverage], relative to the nodes
    [U] still uncovered when the list starts. *)
Lemma while_uncovered_fresh (n : nat) :
  ∀ U, (size U ≤ n)%nat → U ⊆ list_to_set (nodes G) →
  ∃ new : list Z,
    (∀ (i : nat) c, new !! i = Some c →
       c ∈ nodes G ∧
       ∃ x, x ∈ U ∧ x ∈ reach G c X ∧
            ∀ (j : nat) c', (j < i)%nat → new !! j = Some c' → x ∉ reach G c' X) ∧
    ∀ fuel cs, (size U ≤ fuel)%nat →
      while_uncovered fuel G X U cs = Ok (cs ++ (Some <$> new)).
Proof.
  induction n as [|n IH]; intros U Hn Hsub.
  - assert (U = ∅) as -> by (apply leibniz_equiv, size_empty_iff; lia).
    exists []. split; [by intros i c ?|].
    intros fuel cs _. rewrite app_nil_r. destruct fuel; simpl; by rewrite decide_True.
  - destruct (decide (U = ∅)) as [->|Hne].
    { exists []. split; [by intros i c ?|].
      intros fuel cs _. rewrite app_nil_r. destruct fuel; simpl; by rewrite decide_True. }
    destruct (iteration G X HX U Hne Hsub) as (v & Hv & Hpos & Hbest).
    pose proof (iteration_shrinks G X HX U v Hpos) as Hlt.
    destruct (IH (U ∖ (reach G v X ∩ U))) as (new & Hfresh & Hrun); [lia|set_solver|].
    exists (v :: new). split.
    + intros [|i] c Hc; simpl in Hc.
      * injection Hc as <-. split.
        { destruct Hv as (i & Hi & _). by eapply list_elem_of_lookup_2. }
        assert (reach G v X ∩ U ≠ ∅) as [x Hx]%set_choose_L.
        { unfold gain in Hpos. intros E. rewrite E, size_empty in Hpos. lia. }
        exists x. split; [set_solver|]. split; [set_solver|]. intros j c' Hj. lia.
      * destruct (Hfresh i c Hc) as (Hnode & x & Hx & Hreach & Hearlier).
        split; [done|]. exists x. split; [set_solver|]. split; [done|].
        intros [|j] c' Hj Hc'; simpl in Hc'.
        { injection Hc' as <-. set_solver. }
        apply (Hearlier j c'); [lia|done].
    + intros fuel cs Hfuel. destruct fuel as [|fuel]; [lia|].
      simpl. rewrite decide_False by done. rewrite Hbest. simpl.
      rewrite Hrun by lia. by rewrite <- app_assoc.
Qed.
End fresh_centers.

Lemma greedy_centers_fresh (G : Graph) (X : Z) :
  0 <= X →
  ∃ new : list Z,
    (∀ fuel, (length (nodes G) ≤ fuel)%nat →
       greedy_center_placement fuel G X = Ok (Some <$> new)) ∧
    each_adds_coverage G X new.
Proof.
  intros HX. pose proof (size_list_to_set_le (nodes G)) as Hsize.
  destruct (while_uncovered_fresh G X HX (length (nodes G)) (list_to_set (nodes G)))
    as (new & Hfresh & Hrun); [done|done|].
  exists new. split.
  - intros fuel Hfuel. unfold greedy_center_placement. by rewrite Hrun by lia.
  - intros i c Hc. destruct (Hfresh i c Hc) as (Hnode & x & Hx & Hrest).
    split; [done|]. exists x. split; [|done]. by apply elem_of_list_to_set in Hx.
Qed.

Lemma each_adds_coverage_NoDup G X new : each_adds_coverage G X new → NoDup new.
Proof.
  intros Heach. apply NoDup_alt. intros i j c Hi Hj.
  destruct (Nat.lt_trichotomy i j) as [Hlt|[->|Hgt]]; [|done|].
  - destruct (Heach j c Hj) as (_ & x & _ & Hin & Hnot). by destruct (Hnot i c Hlt Hi).
  - destruct (Heach i c Hi) as (_ & x & _ & Hin & Hnot). by destruct (Hnot j c Hgt Hj).
Qed.

(** X1: with a radius of at least 0 the placement returns a list of nodes
    of the graph (never [None]) in which every center reaches at least
    one node that no earlier center reaches; so no node is chosen twice. *)
Theorem centers_each_add_coverage (G : Graph) (X : Z) :
  0 <= X →
  ∃ new : list Z,
    (∀ fuel, (length (nodes G) ≤ fuel)%nat →
       greedy_center_placement fuel G X = Ok (Some <$> new)) ∧
    each_adds_coverage G X new ∧ NoDup new.
Proof.
  intros HX. destruct (greedy_centers_fresh G X HX) as (new & Hrun & Heach).
  exists new. split; [done|]. split; [done|].
  by eapply each_adds_coverage_NoDup.
Qed.

Lemma centers_each_add_coverage_witness :
  ∃ new : list Z,
    (∀ fuel, (length (nodes tree11) ≤ fuel)%nat →
       greedy_center_placement fuel tree11 3 = Ok (Some <$> new)) ∧
    each_adds_coverage tree11 3 new ∧ NoDup new.
Proof. apply (centers_each_add_coverage tree11 3). lia. Defined.

(** ** When the coverage groups can be computed *)

Lemma center_ok_true G c : center_ok G c = true ↔ ∃ v, c = Some v ∧ v ∈ nodes G.
Proof.
  destruct c as [v|]; simpl.
  - rewrite has_node_true. split; [eauto|]. by intros (? & [= <-] & ?).
  - split; [done|]. by intros (? & ? & _).
Qed.

Lemma record_center_bad G X st c :
  center_ok G c = false → record_center G X st c = Raise NodeNotFound.
Proof.
  destruct c as [v|]; simpl; [|done]. intros Hv.
  rewrite covered_nodes_not_node; [done|]. intros Hin%has_node_true. congruence.
Qed.

Lemma record_centers_bad G X cs : ∀ st,
  forallb (center_ok G) cs = false →
  for_each (record_center G X) cs st = Raise NodeNotFound.
Proof.
  induction cs as [|c cs IH]; intros st; simpl; [done|].
  destruct (center_ok G c) eqn:Hc; simpl.
  - intros Hcs. apply center_ok_true in Hc as (v & -> & Hv).
    rewrite record_center_node by done. simpl. by apply IH.
  - intros _. by rewrite record_center_bad.
Qed.

(** X2: the reporting loop succeeds exactly when every center is a node
    of the graph; it then returns one entry per distinct center and the
    union of the centers' reach sets.  If some center is [None] or not a
    node, the loop raises networkx's [NodeNotFound]. *)
Theorem coverage_groups_outcome (G : Graph) (X : Z) (cs : list (option Z)) :
  (forallb (center_ok G) cs = true →
     ∃ m, coverage_groups G X cs = Ok (m, covered_by G X (omap id cs)) ∧
          dom m = list_to_set (omap id cs)) ∧
  (forallb (center_ok G) cs = false →
     coverage_groups G X cs = Raise NodeNotFound).
Proof.
  split; [|apply record_centers_bad].
  intros Hok.
  assert (∃ cs' : list Z, cs = Some <$> cs' ∧ ∀ c, c ∈ cs' → c ∈ nodes G)
    as (cs' & -> & Hnodes).
  { clear X. induction cs as [|c cs IH].
    { exists []. split; [done|]. by intros c ?%elem_of_nil. }
    simpl in Hok. apply andb_true_iff in Hok as [Hc Hcs].
    apply center_ok_true in Hc as (v & -> & Hv).
    destruct (IH Hcs) as (cs' & -> & Hcs').
    exists (v :: cs'). split; [done|]. intros c [->|Hc]%elem_of_cons; auto. }
  assert (omap id (Some <$> cs') = cs') as ->.
  { clear. induction cs' as [|c cs' IH]; [done|]. simpl. f_equal. apply IH. }
  destruct (record_centers_nodes G X cs' ∅ ∅ Hnodes) as [m Hm].
  exists m. unfold coverage_groups. rewrite Hm, union_empty_l_L. split; [done|].
  apply record_centers_inv in Hm as (cs'' & Heq & _ & _ & Hin & Hout).
  apply (inj (fmap Some)) in Heq as <-.
  apply set_eq. intros c. rewrite elem_of_dom, elem_of_list_to_set.
  destruct (decide (c ∈ cs')) as [Hc|Hc].
  - rewrite (Hin c Hc). split; [done|eauto].
  - rewrite (Hout c Hc), lookup_empty. split; [by intros ?%is_Some_None|done].
Qed.

(** ** The centers placed on a chain *)

Lemma chain_centers_from_past n N X p : N < p → chain_centers_from n N X p = [].
Proof. intros Hp. destruct n; simpl; [done|]. by rewrite decide_True. Qed.

Lemma chain_centers_from_length (n : nat) N X : ∀ p,
  0 <= X → 1 <= p → N - p + 1 <= Z.of_nat n →
  Z.of_nat (length (chain_centers_from n N X p))
  = (Z.max 0 (N - p + 1) + (2 * X + 1 - 1)) / (2 * X + 1).
Proof.
  induction n as [|n IH]; intros p HX Hp Hn; cbn [chain_centers_from].
  - simpl. rewrite Z.max_l by lia. by rewrite Z.div_small by lia.
  - destruct (decide (N < p)) as [Hpast|Hin].
    { simpl. rewrite Z.max_l by lia. by rewrite Z.div_small by lia. }
    rewrite (Z.max_r 0 (N - p + 1)) by lia.
    rewrite <- (ceil_step (2 * X + 1) (N - p + 1)) by lia.
    destruct (decide (p + 2 * X <= N)) as [Hroom|Hend].
    + rewrite length_cons, Nat2Z.inj_succ, IH by lia.
      replace (N - (p + (2 * X + 1)) + 1) with (N - p + 1 - (2 * X + 1)) by lia. lia.
    + cbn [length]. rewrite Z.max_l by lia. rewrite Z.div_small by lia. done.
Qed.

Lemma chain_centers_from_lookup (n : nat) N X : ∀ p (i : nat),
  0 <= X → 1 <= p → N - p + 1 <= Z.of_nat n →
  p + (Z.of_nat i + 1) * (2 * X + 1) - 1 <= N →
  chain_centers_from n N X p !! i = Some (p + X + Z.of_nat i * (2 * X + 1)).
Proof.
  induction n as [|n IH]; intros p i HX Hp Hn Hi; [nia|].
  simpl. rewrite decide_False by nia. rewrite decide_True by nia.
  destruct i as [|i]; simpl.
  - f_equal. lia.
  - rewrite IH by nia. f_equal. nia.
Qed.

Lemma chain_centers_from_last (n : nat) N X : ∀ p,
  0 <= X → 1 <= p <= N + 1 → N - p + 1 <= Z.of_nat n →
  (N - p + 1) `mod` (2 * X + 1) ≠ 0 →
  last (chain_centers_from n N X p) = Some (Z.max 1 (N - X)).
Proof.
  induction n as [|n IH]; intros p HX Hp Hn Hrem.
  - exfalso. apply Hrem. by replace (N - p + 1) with 0 by lia.
  - cbn [chain_centers_from]. destruct (decide (N < p)) as [Hpast|Hin].
    { exfalso. apply Hrem. by replace (N - p + 1) with 0 by lia. }
    destruct (decide (p + 2 * X <= N)) as [Hroom|Hend]; [|done].
    assert ((N - (p + (2 * X + 1)) + 1) `mod` (2 * X + 1) ≠ 0) as Hrem'.
    { replace (N - (p + (2 * X + 1)) + 1) with (N - p + 1 + (-1) * (2 * X + 1)) by lia.
      by rewrite Z_mod_plus_full. }
    specialize (IH (p + (2 * X + 1)) HX ltac:(lia) ltac:(lia) Hrem').
    destruct (chain_centers_from n N X (p + (2 * X + 1))) as [|c l] eqn:E; [done|].
    by rewrite last_cons, IH.
Qed.

Section chain_exact.
Context (G : Graph) (N X : Z).
Context (Hnodes : nodes G = seqZ 1 N).
Context (Hreach : ∀ c n, 1 <= c <= N →
           n ∈ reach G c X ↔ 1 <= n <= N ∧ Z.abs (n - c) <= X).
Context (HX : 0 <= X).

(** Which node is the first of maximum gain when [p..N] is uncovered. *)
Lemma chain_choice_node p v :
  1 <= p <= N → first_of_max_gain G X (span p N) v →
  v = if decide (p + 2 * X <= N) then p + X else Z.max 1 (N - X).
Proof.
  intros Hp (i & Hi & Hmax & Hfirst).
  assert (1 <= v <= N ∧ i = Z.to_nat (v - 1)) as [Hv ->].
  { rewrite Hnodes in Hi. apply lookup_seqZ in Hi. lia. }
  pose proof (chain_gain G N X Hreach HX p v ltac:(lia) Hv) as Hgv.
  set (w := if decide (p + 2 * X <= N) then p + X else Z.max 1 (N - X)).
  assert (1 <= w <= N) as Hw by (unfold w; case_decide; lia).
  pose proof (chain_gain G N X Hreach HX p w ltac:(lia) Hw) as Hgw.
  pose proof (Hmax w (proj2 (chain_node_range G N Hnodes w) Hw)) as Hle.
  destruct (Z.lt_trichotomy v w) as [Hlt|[->|Hgt]]; [|done|].
  - exfalso. unfold w in *. case_decide; lia.
  - exfalso.
    pose proof (Hfirst (Z.to_nat (w - 1)) w ltac:(lia)
                  (chain_node_index G N Hnodes w Hw)) as Hstrict.
    unfold w in *. case_decide; lia.
Qed.

Lemma chain_exact (n : nat) : ∀ p,
  1 <= p → N - p + 1 <= Z.of_nat n →
  ∀ fuel cs, (n ≤ fuel)%nat →
    while_uncovered fuel G X (span p N) cs
    = Ok (cs ++ (Some <$> chain_centers_from n N X p)).
Proof.
  assert (∀ p, N < p → span p N = ∅) as Hempty.
  { intros p Hp. apply set_eq. intros x. rewrite elem_of_span. set_solver by lia. }
  induction n as [|n IH]; intros p Hp Hn fuel cs Hfuel.
  - rewrite Hempty by lia. simpl. rewrite app_nil_r.
    destruct fuel; simpl; by rewrite decide_True.
  - simpl. destruct (decide (N < p)) as [Hpast|Hin].
    { rewrite Hempty by lia. simpl. rewrite app_nil_r.
      destruct fuel; simpl; by rewrite decide_True. }
    assert (span p N ≠ ∅) as Hne.
    { intros E. assert (p ∈ span p N) as Hin' by (apply elem_of_span; lia).
      rewrite E in Hin'. by apply elem_of_empty in Hin'. }
    assert (span p N ⊆ list_to_set (nodes G)) as Hsub.
    { intros x. rewrite elem_of_span, elem_of_list_to_set, (chain_node_range G N Hnodes).
      lia. }
    destruct (iteration G X HX (span p N) Hne Hsub) as (v & Hv & _ & Hbest).
    rewrite (chain_choice G N X Hnodes Hreach HX p v ltac:(lia) Hv) in Hbest.
    rewrite (chain_choice_node p v ltac:(lia) Hv) in Hbest.
    destruct fuel as [|fuel]; [lia|].
    cbn [while_uncovered]. rewrite decide_False by done. rewrite Hbest, bind_Ok.
    cbn [fst snd]. rewrite (span_after N X HX), IH by lia.
    rewrite <- app_assoc. do 2 f_equal.
    destruct (decide (p + 2 * X <= N)) as [Hroom|Hend]; [done|].
    by rewrite chain_centers_from_past by lia.
Qed.

Lemma chain_reach_size c : 1 <= c <= N → Z.of_nat (size (reach G c X)) <= 2 * X + 1.
Proof.
  intros Hc. assert (reach G c X = reach G c X ∩ span 1 N) as ->.
  { apply set_eq. intros n. rewrite elem_of_intersection, elem_of_span, (Hreach c n Hc).
    lia. }
  rewrite (chain_cover G N X Hreach HX 1 c) by lia. rewrite size_span. lia.
Qed.

Lemma chain_covered_by_size (alt : list Z) :
  (∀ c, c ∈ alt → 1 <= c <= N) →
  Z.of_nat (size (covered_by G X alt)) <= Z.of_nat (length alt) * (2 * X + 1).
Proof.
  unfold covered_by. induction alt as [|c alt IH]; intros Halt.
  - rewrite fmap_nil, union_list_nil, size_empty. simpl. lia.
  - rewrite fmap_cons, union_list_cons, length_cons.
    pose proof (chain_reach_size c (Halt c ltac:(constructor))) as Hc.
    specialize (IH (λ c' Hc', Halt c' (list_elem_of_further _ _ _ Hc'))).
    assert (size (reach G c X ∪ ⋃ ((λ c0, reach G c0 X) <$> alt))
            ≤ size (reach G c X) + size (⋃ ((λ c0, reach G c0 X) <$> alt)))%nat.
    { rewrite size_union_alt.
      assert (size (⋃ ((λ c0, reach G c0 X) <$> alt) ∖ reach G c X)
              ≤ size (⋃ ((λ c0, reach G c0 X) <$> alt)))%nat; [|lia].
      apply subseteq_size. set_solver. }
    lia.
Qed.
End chain_exact.

(** X3: on the chain the handler builds, with a radius of at least 0,
    the placement returns the centers of [chain_centers_expected]: the
    i-th center (from 0) is node [X + 1 + i (2X + 1)] as long as i + 1
    windows of [2X + 1] locations fit in the chain, and when [N] is not a
    multiple of [2X + 1] the last center is node [max 1 (N - X)], the
    first node that reaches location [N]. *)
Theorem chain_centers_closed_form (N : Z) (population_list : list Z) (X : Z) :
  Z.of_nat (length population_list) = N → 0 <= X →
  ∃ G, build_chain N population_list = Ok G ∧
    (∀ fuel, (Z.to_nat N ≤ fuel)%nat →
       greedy_center_placement fuel G X = Ok (Some <$> chain_centers_expected N X)) ∧
    (∀ i : nat, (Z.of_nat i + 1) * (2 * X + 1) <= N →
       chain_centers_expected N X !! i = Some (X + 1 + Z.of_nat i * (2 * X + 1))) ∧
    (N `mod` (2 * X + 1) ≠ 0 →
       last (chain_centers_expected N X) = Some (Z.max 1 (N - X))).
Proof.
  intros HN HX.
  destruct (build_chain_shape N population_list HN) as (G & HG & Hnodes & _ & Hadj).
  assert (∀ c n, 1 <= c <= N → n ∈ reach G c X ↔ 1 <= n <= N ∧ Z.abs (n - c) <= X)
    as Hreach by (intros c n Hc; by apply (chain_reach G N)).
  exists G. split; [done|]. unfold chain_centers_expected. split; [|split].
  - intros fuel Hfuel. unfold greedy_center_placement.
    rewrite (span_all G N Hnodes).
    by rewrite (chain_exact G N X Hnodes Hreach HX (Z.to_nat N) 1) by lia.
  - intros i Hi. rewrite chain_centers_from_lookup by lia. f_equal. lia.
  - intros Hrem. apply chain_centers_from_last; try lia.
    by replace (N - 1 + 1) with N by lia.
Qed.

Lemma chain_centers_closed_form_witness :
  ∃ G, build_chain 4 [5; 0; 2; 9] = Ok G ∧
    (∀ fuel, (Z.to_nat 4 ≤ fuel)%nat →
       greedy_center_placement fuel G 1 = Ok (Some <$> chain_centers_expected 4 1)) ∧
    (∀ i : nat, (Z.of_nat i + 1) * (2 * 1 + 1) <= 4 →
       chain_centers_expected 4 1 !! i = Some (1 + 1 + Z.of_nat i * (2 * 1 + 1))) ∧
    (4 `mod` (2 * 1 + 1) ≠ 0 →
       last (chain_centers_expected 4 1) = Some (Z.max 1 (4 - 1))).
Proof.
  apply (chain_centers_closed_form 4 [5; 0; 2; 9] 1); [reflexivity|lia].
Defined.

(** X4: on the chain the handler builds, with a radius of at least 0,
    the placement uses ceil(N / (2X + 1)) centers, and no list of nodes
    whose reach sets cover the chain is shorter. *)
Theorem chain_placement_is_minimum (N : Z) (population_list : list Z) (X : Z) :
  Z.of_nat (length population_list) = N → 0 <= X →
  ∃ G cs, build_chain N population_list = Ok G ∧
    (∀ fuel, (Z.to_nat N ≤ fuel)%nat → greedy_center_placement fuel G X = Ok cs) ∧
    Z.of_nat (length cs) = (N + 2 * X) / (2 * X + 1) ∧
    ∀ alt : list Z,
      (∀ c, c ∈ alt → c ∈ nodes G) →
      list_to_set (nodes G) ⊆ covered_by G X alt →
      (length cs ≤ length alt)%nat.
Proof.
  intros HN HX.
  destruct (build_chain_shape N population_list HN) as (G & HG & Hnodes & _ & Hadj).
  assert (∀ c n, 1 <= c <= N → n ∈ reach G c X ↔ 1 <= n <= N ∧ Z.abs (n - c) <= X)
    as Hreach by (intros c n Hc; by apply (chain_reach G N)).
  destruct (chain_centers G N X Hnodes Hreach HX) as (cs & Hlen & Hrun).
  assert (Z.of_nat (length cs) = (N + 2 * X) / (2 * X + 1)) as Hcount.
  { rewrite Hlen. f_equal. lia. }
  exists G, cs. split; [done|]. split; [done|]. split; [done|].
  intros alt Halt Hcover.
  assert (Z.of_nat (size (covered_by G X alt)) <= Z.of_nat (length alt) * (2 * X + 1))
    as Hsize.
  { eapply chain_covered_by_size; eauto. intros c Hc.
    by apply (chain_node_range G N Hnodes), Halt. }
  apply subseteq_size in Hcover.
  rewrite (span_all G N Hnodes), size_span in Hcover.
  assert ((N + 2 * X) / (2 * X + 1) < Z.of_nat (length alt) + 1); [|lia].
  apply Z.div_lt_upper_bound; nia.
Qed.

Lemma chain_placement_is_minimum_witness :
  ∃ G cs, build_chain 4 [5; 0; 2; 9] = Ok G ∧
    (∀ fuel, (Z.to_nat 4 ≤ fuel)%nat → greedy_center_placement fuel G 1 = Ok cs) ∧
    Z.of_nat (length cs) = (4 + 2 * 1) / (2 * 1 + 1) ∧
    ∀ alt : list Z,
      (∀ c, c ∈ alt → c ∈ nodes G) →
      list_to_set (nodes G) ⊆ covered_by G 1 alt →
      (length cs ≤ length alt)%nat.
Proof.
  apply (chain_placement_is_minimum 4 [5; 0; 2; 9] 1); [reflexivity|lia].
Defined.

(** ** The graph construction *)

Lemma foldl_add_link_nodes N l : ∀ G,
  nodes G = seqZ 1 N → (∀ i, i ∈ l → 1 <= i < N) →
  nodes (foldl add_link G l) = seqZ 1 N.
Proof.
  induction l as [|i l IH]; intros G Hnodes Hl; [done|].
  simpl. apply IH; [|intros j Hj; apply Hl; by constructor].
  unfold add_link, add_edge. simpl.
  rewrite (ensure_node_node G i) by (rewrite Hnodes, elem_of_seqZ;
    specialize (Hl i ltac:(constructor)); lia).
  rewrite (ensure_node_node G (i + 1)) by (rewrite Hnodes, elem_of_seqZ;
    specialize (Hl i ltac:(constructor)); lia).
  done.
Qed.

Lemma add_location_out population_list G i :
  (length population_list ≤ Z.to_nat (i - 1))%nat →
  add_location population_list G i = Raise IndexError.
Proof. intros Hi. unfold add_location. by rewrite lookup_ge_None_2. Qed.

(** X5: the chain construction reads one population per location: it
    succeeds, with the nodes 1..N in order, whenever the list holds at
    least [num_locations] values, and raises [IndexError] when it holds
    fewer; this is what the handler's count check keeps from happening. *)
Theorem build_chain_outcome (N : Z) (population_list : list Z) :
  (N <= Z.of_nat (length population_list) →
     ∃ G, build_chain N population_list = Ok G ∧ nodes G = seqZ 1 N ∧ wf_graph G) ∧
  (Z.of_nat (length population_list) < N →
     build_chain N population_list = Raise IndexError).
Proof.
  split.
  - intros HN.
    destruct (add_locations population_list (Z.to_nat N)) as (G0 & Hrun & Hnodes & _);
      [lia|].
    assert (seqZ 1 (Z.of_nat (Z.to_nat N)) = seqZ 1 N) as Hseq.
    { destruct (decide (0 <= N)); [by rewrite Z2Nat.id|].
      by rewrite !seqZ_nil by lia. }
    rewrite Hseq in Hrun, Hnodes.
    assert (build_chain N population_list
            = Ok (foldl add_link G0 (seqZ 1 (N - 1)))) as Hbuild.
    { unfold build_chain. by rewrite Hrun. }
    eexists. split; [exact Hbuild|]. split.
    + apply foldl_add_link_nodes; [done|]. intros i Hi%elem_of_seqZ. lia.
    + by eapply wf_build_chain.
  - intros HN. unfold build_chain.
    destruct (add_locations population_list (length population_list))
      as (G0 & Hrun & _); [done|].
    assert (for_each (add_location population_list) (seqZ 1 N) empty_graph
            = Raise IndexError) as ->; [|done].
    set (len := Z.of_nat (length population_list)) in *.
    replace N with (len + (N - len)) by lia.
    rewrite seqZ_app, for_each_app, Hrun, bind_Ok by lia.
    rewrite (seqZ_cons (1 + len)), for_each_cons by lia.
    by rewrite add_location_out by lia.
Qed.

(** X6: the graph the handler builds is the path 1 - 2 - ... - N: the
    nodes are 1..N in that order, node [i] carries the [i]-th population
    entered, asking a population of anything else raises [KeyError], and
    [j] is a neighbour of [i] exactly when both are locations and differ
    by one. *)
Theorem chain_is_a_path (N : Z) (population_list : list Z) :
  Z.of_nat (length population_list) = N →
  ∃ G, build_chain N population_list = Ok G ∧ nodes G = seqZ 1 N ∧
    (∀ i p, 1 <= i → population_list !! Z.to_nat (i - 1) = Some p →
       population G i = Ok p) ∧
    (∀ i, ¬ 1 <= i <= N → population G i = Raise KeyError) ∧
    (∀ i j, j ∈ adj_of (adj G) i ↔
            1 <= i <= N ∧ 1 <= j <= N ∧ (j = i - 1 ∨ j = i + 1)).
Proof.
  intros HN.
  destruct (build_chain_shape N population_list HN) as (G & HG & Hnodes & Hpop & Hadj).
  exists G. split; [done|]. split; [done|]. split; [|split].
  - intros i p Hi Hp. apply Hpop; [|done].
    apply lookup_lt_Some in Hp. lia.
  - intros i Hi. unfold population. rewrite alist_get_None; [done|].
    fold (nodes G). rewrite Hnodes, elem_of_seqZ. lia.
  - intros i j. apply (chain_adj_of N (adj G) Hadj).
Qed.

Lemma chain_is_a_path_witness :
  ∃ G, build_chain 3 [3; 0; 7] = Ok G ∧ nodes G = seqZ 1 3 ∧
    (∀ i p, 1 <= i → [3; 0; 7] !! Z.to_nat (i - 1) = Some p →
       population G i = Ok p) ∧
    (∀ i, ¬ 1 <= i <= 3 → population G i = Raise KeyError) ∧
    (∀ i j, j ∈ adj_of (adj G) i ↔
            1 <= i <= 3 ∧ 1 <= j <= 3 ∧ (j = i - 1 ∨ j = i + 1)).
Proof. apply (chain_is_a_path 3 [3; 0; 7]). reflexivity. Defined.

(** ** What [covered_nodes] means *)

Section bfs_meaning.
Context (a : gmap Z (list Z)) (s : Z).

Lemma bfs_front_start : bfs_front a s 0 {[s := 0]} [s].
Proof.
  split; [|split].
  - intros x d [-> <-]%lookup_singleton_Some. split; [lia|]. constructor.
  - intros x n Hw Hn. assert (n = 0%nat) as -> by lia.
    inversion Hw; subst. exists 0. by rewrite lookup_singleton_eq.
  - intros x. rewrite list_elem_of_singleton, lookup_singleton_Some. naive_solver.
Qed.

Lemma bfs_front_round k seen F st :
  0 <= k → bfs_front a s k seen F →
  sweeps (k + 1) (λ x, ∃ v, v ∈ F ∧ x ∈ adj_of a v) (seen, []) st →
  bfs_front a s (k + 1) st.1 st.2.
Proof.
  intros Hk (Hsound & Hfull & HF) [H1 H2]. simpl in *. split; [|split].
  - intros x d [Hold|(Hnew & (v & Hv & Hx) & ->)]%H1.
    + destruct (Hsound x d Hold). split; [lia|done].
    + split; [lia|]. apply HF, Hsound in Hv as [_ Hv].
      replace (Z.to_nat (k + 1)) with (S (Z.to_nat k)) by lia. by econstructor.
  - intros x n Hw Hn.
    destruct (seen !! x) as [d|] eqn:Hseen.
    { destruct (decide (Z.of_nat n <= k)) as [Hle|Hgt].
      - destruct (Hfull x n Hw Hle) as (d' & Hd' & Hle'). exists d'.
        split; [apply H1; by left|done].
      - exists d. split; [apply H1; by left|]. destruct (Hsound x d Hseen). lia. }
    destruct (decide (Z.of_nat n <= k)) as [Hle|Hgt].
    { destruct (Hfull x n Hw Hle) as (d' & Hd' & _). congruence. }
    inversion Hw as [|v w n' Hv Hx]; subst; [lia|].
    destruct (Hfull v n' Hv ltac:(lia)) as (dv & Hdv & Hle).
    destruct (Hsound v dv Hdv) as [Hrange Hwalk].
    destruct (decide (dv = k)) as [->|Hne].
    + exists (k + 1). split; [|lia]. apply H1. right. split; [done|]. split; [|done].
      exists v. split; [by apply HF|done].
    + exfalso. assert (walk a s x (S (Z.to_nat dv))) as Hshort by (by econstructor).
      destruct (Hfull x _ Hshort ltac:(lia)) as (d' & Hd' & _). congruence.
  - intros x. rewrite H2, elem_of_nil. split.
    + intros [[]|(Hnew & HP)]. apply H1. tauto.
    + intros [Hold|(Hnew & HP & _)]%H1; [|tauto].
      destruct (Hsound x _ Hold). lia.
Qed.

(** With an empty frontier nothing further away exists. *)
Lemma bfs_front_done k seen :
  0 <= k → bfs_front a s k seen [] →
  ∀ x (n : nat), walk a s x n → ∃ d, seen !! x = Some d ∧ d <= Z.of_nat n.
Proof.
  intros Hk (Hsound & Hfull & HF) x n Hw. induction Hw as [|v w n Hv IH Hx].
  - apply Hfull; [constructor|simpl; lia].
  - destruct IH as (dv & Hdv & Hle). destruct (Hsound v dv Hdv) as [Hrange Hwalk].
    assert (dv ≠ k) as Hne.
    { intros ->. apply HF in Hdv. by apply elem_of_nil in Hdv. }
    assert (walk a s w (S (Z.to_nat dv))) as Hshort by (by econstructor).
    destruct (Hfull w _ Hshort ltac:(lia)) as (d' & Hd' & Hle').
    exists d'. split; [done|lia].
Qed.

Lemma bfs_levels_meaning fuel : ∀ k seen F,
  0 <= k → bfs_front a s k seen F →
  (∀ x d, bfs_levels fuel a seen F k !! x = Some d →
     0 <= d ∧ walk a s x (Z.to_nat d)) ∧
  (∀ x (n : nat), walk a s x n → Z.of_nat n <= k + Z.of_nat fuel →
     ∃ d, bfs_levels fuel a seen F k !! x = Some d ∧ d <= Z.of_nat n).
Proof.
  induction fuel as [|fuel IH]; intros k seen F Hk Hfront.
  - simpl. destruct Hfront as (Hsound & Hfull & _). split.
    + intros x d Hd. destruct (Hsound x d Hd). split; [lia|done].
    + intros x n Hw Hn. apply Hfull; [done|lia].
  - simpl. destruct F as [|v F].
    + split.
      * intros x d Hd. destruct Hfront as (Hsound & _). destruct (Hsound x d Hd).
        split; [lia|done].
      * intros x n Hw _. by apply (bfs_front_done k seen).
    + destruct (IH (k + 1) _ _ ltac:(lia)
                  (bfs_front_round k seen (v :: F) _ Hk Hfront
                     (round_sweeps a (k + 1) (v :: F) (seen, [])))) as [HA HB].
      split; [done|]. intros x n Hw Hn. apply HB; [done|lia].
Qed.
End bfs_meaning.

(** Only nodes are ever reached in a well-formed graph. *)
Lemma walk_ends_in_graph G s x n :
  wf_graph G → s ∈ nodes G → walk (adj G) s x n → x ∈ nodes G.
Proof.
  intros [Hkeys Hclosed] Hs Hw. destruct Hw as [|v w n Hv Hx]; [done|].
  by eapply Hkeys, Hclosed.
Qed.

(** The reach set of a node of a well-formed graph, in terms of walks. *)
Lemma reach_means_walk G c X x :
  wf_graph G → c ∈ nodes G →
  x ∈ reach G c X ↔ ∃ n : nat, walk (adj G) c x n ∧ Z.of_nat n <= X.
Proof.
  intros HG Hc. rewrite elem_of_reach. split.
  - intros (d & Hd & Hle).
    destruct (bfs_levels_meaning (adj G) c (size (adj G)) 0 _ _ ltac:(lia)
                (bfs_front_start (adj G) c)) as [HA _].
    destruct (HA x d Hd) as [Hpos Hw]. exists (Z.to_nat d). split; [done|lia].
  - intros (n & Hw & Hle).
    destruct (bfs_levels_meaning (adj G) c (size (adj G) + n) 0 _ _ ltac:(lia)
                (bfs_front_start (adj G) c)) as [_ HB].
    destruct (HB x n Hw ltac:(lia)) as (d & Hd & Hdn).
    rewrite (search_complete G c n HG Hc) in Hd. exists d. split; [done|lia].
Qed.

(** X7: in a well-formed graph [covered_nodes(G, center, X)] returns, for
    a node [center], exactly the nodes joined to it by a walk of at most
    [X] edges ("all nodes within distance X"), all of them nodes of the
    graph. *)
Theorem covered_nodes_within_hops (G : Graph) (c : Z) (X : Z) :
  wf_graph G → c ∈ nodes G →
  ∃ cover, covered_nodes G c X = Ok cover ∧
    (∀ x, x ∈ cover ↔ ∃ n : nat, walk (adj G) c x n ∧ Z.of_nat n <= X) ∧
    cover ⊆ list_to_set (nodes G).
Proof.
  intros HG Hc. exists (reach G c X). split; [by apply covered_nodes_node|].
  split; [intros x; by apply reach_means_walk|].
  intros x (n & Hw & _)%reach_means_walk; [|done..].
  apply elem_of_list_to_set. by eapply walk_ends_in_graph.
Qed.

Lemma covered_nodes_within_hops_witness :
  ∃ cover, covered_nodes tree11 5 3 = Ok cover ∧
    (∀ x, x ∈ cover ↔ ∃ n : nat, walk (adj tree11) 5 x n ∧ Z.of_nat n <= 3) ∧
    cover ⊆ list_to_set (nodes tree11).
Proof.
  apply (covered_nodes_within_hops tree11 5 3).
  - exact wf_tree11.
  - apply (bool_decide_unpack _). vm_compute. exact I.
Defined.

(** ** Undirected graphs *)

Lemma undirected_empty_graph : undirected empty_graph.
Proof.
  split; [apply wf_empty_graph|]. intros u v. unfold adj_of. simpl.
  rewrite lookup_empty. simpl. by intros ?%elem_of_nil.
Qed.

Lemma undirected_new_node G n attr :
  undirected G → n ∉ nodes G →
  undirected (mkGraph (node_attr G ++ [(n, attr)]) (<[n := []]> (adj G))).
Proof.
  intros [HG Hsym] Hfresh. split; [by apply wf_new_node|].
  destruct HG as [Hkeys Hclosed].
  assert (adj G !! n = None) as Hnone.
  { apply eq_None_not_Some. by intros ?%Hkeys. }
  intros u v. unfold adj_of. simpl.
  destruct (decide (n = u)) as [->|Hu].
  { rewrite lookup_insert_eq. simpl. by intros ?%elem_of_nil. }
  rewrite lookup_insert_ne by done. intros Hv.
  destruct (decide (n = v)) as [->|Hne].
  { apply Hclosed in Hv. rewrite Hnone in Hv. by destruct Hv. }
  rewrite lookup_insert_ne by done. by apply Hsym.
Qed.

Lemma undirected_add_node G n p : undirected G → undirected (add_node n p G).
Proof.
  intros HG. split; [apply wf_add_node, HG|]. revert HG.
  unfold add_node. destruct (has_node G n) eqn:E; intros HG.
  - apply HG.
  - apply undirected_new_node; [done|]. intros Hn%has_node_true. congruence.
Qed.

Lemma undirected_ensure_node G n : undirected G → undirected (ensure_node n G).
Proof.
  intros HG. unfold ensure_node. destruct (has_node G n) eqn:E; [done|].
  apply undirected_new_node; [done|]. intros Hn%has_node_true. congruence.
Qed.

Lemma adj_of_add_nbr u v a x :
  adj_of (add_nbr u v a) x =
  if decide (u = x)
  then (if decide (v ∈ adj_of a u) then adj_of a u else adj_of a u ++ [v])
  else adj_of a x.
Proof.
  unfold adj_of at 1. rewrite add_nbr_lookup. by destruct (decide (u = x)).
Qed.

Lemma elem_of_adj_of_add_nbr u v a x y :
  y ∈ adj_of (add_nbr u v a) x ↔ y ∈ adj_of a x ∨ (x = u ∧ y = v).
Proof.
  rewrite adj_of_add_nbr. destruct (decide (u = x)) as [->|Hne].
  - destruct (decide (v ∈ adj_of a x)) as [Hin|Hout].
    + split; [tauto|]. intros [?|[_ ->]]; done.
    + rewrite elem_of_app, list_elem_of_singleton. naive_solver.
  - naive_solver.
Qed.

Lemma undirected_add_edge G u v : undirected G → undirected (add_edge u v G).
Proof.
  intros HG. split; [apply wf_add_edge, HG|].
  apply (undirected_ensure_node G u), (undirected_ensure_node _ v) in HG.
  destruct HG as [_ Hsym]. unfold add_edge. simpl.
  set (G' := ensure_node v (ensure_node u G)) in *.
  intros x y. rewrite !elem_of_adj_of_add_nbr. specialize (Hsym x y).
  naive_solver.
Qed.

Lemma undirected_tree11 : undirected tree11.
Proof.
  unfold tree11.
  change (seqZ 1 11) with [1; 2; 3; 4; 5; 6; 7; 8; 9; 10; 11].
  cbn [foldl fst snd].
  do 10 apply undirected_add_edge. do 11 apply undirected_add_node.
  apply undirected_empty_graph.
Qed.

Lemma undirected_build_chain N population_list G :
  build_chain N population_list = Ok G → undirected G.
Proof.
  unfold build_chain. intros HG.
  destruct (for_each _ _ _) as [G0| |] eqn:E; [rewrite bind_Ok in HG|done|done].
  injection HG as <-.
  assert (undirected G0) as HG0.
  { clear -E. revert E. generalize (seqZ 1 N). intros l. revert G0.
    induction l as [|i l IH] using rev_ind; intros G0.
    - intros [= <-]. apply undirected_empty_graph.
    - rewrite for_each_snoc.
      destruct (for_each _ l _) as [G1| |]; [rewrite bind_Ok|done|done].
      unfold add_location. destruct (_ !! _); [|done].
      intros [= <-]. by apply undirected_add_node, IH. }
  generalize (seqZ 1 (N - 1)). intros l.
  induction l as [|i l IH] using rev_ind; [done|].
  rewrite foldl_snoc. by apply undirected_add_edge.
Qed.

Section walks.
Context (a : gmap Z (list Z)).
Context (Hsym : ∀ u v, v ∈ adj_of a u → u ∈ adj_of a v).

Lemma walk_prepend s v x n : v ∈ adj_of a s → walk a v x n → walk a s x (S n).
Proof.
  intros Hv Hw. induction Hw as [|w y n Hw IH Hy].
  - econstructor; [constructor|done].
  - econstructor; [exact IH|done].
Qed.

Lemma walk_back s x n : walk a s x n → walk a x s n.
Proof.
  induction 1 as [|v w n Hw IH Hx]; [constructor|].
  eapply walk_prepend; [by apply Hsym|done].
Qed.
End walks.

(** X8: in an undirected graph coverage is mutual: a node that a
    center reaches within [X] edges is a node of the graph and reaches
    that center within [X] edges too. *)
Theorem coverage_is_mutual (G : Graph) (c x : Z) (X : Z) :
  undirected G → c ∈ nodes G → x ∈ reach G c X →
  x ∈ nodes G ∧ covered_nodes G x X = Ok (reach G x X) ∧ c ∈ reach G x X.
Proof.
  intros [HG Hsym] Hc Hx.
  apply (reach_means_walk G c X x HG Hc) in Hx as (n & Hw & Hn).
  assert (x ∈ nodes G) as Hxn by (by eapply walk_ends_in_graph).
  split; [done|]. split; [by apply covered_nodes_node|].
  apply (reach_means_walk G x X c HG Hxn). exists n. split; [|done].
  by apply walk_back.
Qed.

Lemma coverage_is_mutual_witness :
  9 ∈ nodes tree11 ∧ covered_nodes tree11 9 3 = Ok (reach tree11 9 3) ∧
  5 ∈ reach tree11 9 3.
Proof.
  apply (coverage_is_mutual tree11 5 9 3).
  - exact undirected_tree11.
  - apply (bool_decide_unpack _). vm_compute. exact I.
  - apply (bool_decide_unpack _). vm_compute. exact I.
Defined.

(** ** Radius 0 *)

(** Only the center itself is at distance 0. *)
Lemma reach_zero G v : reach G v 0 = {[v]}.
Proof.
  apply set_eq. intros x. rewrite elem_of_singleton. split.
  - intros (d & Hd & Hle)%elem_of_reach.
    destruct (bfs_levels_meaning (adj G) v (size (adj G)) 0 _ _ ltac:(lia)
                (bfs_front_start (adj G) v)) as [HA _].
    destruct (HA x d Hd) as [Hpos Hw].
    replace (Z.to_nat d) with 0%nat in Hw by lia. by inversion Hw.
  - intros ->. by apply reach_self.
Qed.

Lemma gain_zero G U u : gain G 0 U u = if decide (u ∈ U) then 1%nat else 0%nat.
Proof.
  unfold gain. rewrite reach_zero. case_decide as Hu.
  - replace ({[u]} ∩ U) with ({[u]} : gset Z) by set_solver. apply size_singleton.
  - replace ({[u]} ∩ U) with (∅ : gset Z) by set_solver. apply size_empty.
Qed.

Lemma radius_zero_loop G (l2 : list Z) : ∀ l1,
  nodes G = l1 ++ l2 → NoDup (nodes G) →
  ∀ fuel cs, (length l2 ≤ fuel)%nat →
    while_uncovered fuel G 0 (list_to_set l2) cs = Ok (cs ++ (Some <$> l2)).
Proof.
  induction l2 as [|x l2 IH]; intros l1 Hnodes Hnd fuel cs Hfuel.
  - simpl. rewrite app_nil_r. destruct fuel; simpl; by rewrite decide_True.
  - set (U := list_to_set (x :: l2) : gset Z).
    assert (x ∈ U) as HxU by (unfold U; set_solver).
    assert (U ≠ ∅) as Hne by set_solver.
    assert (U ⊆ list_to_set (nodes G)) as Hsub.
    { rewrite Hnodes. unfold U. intros y. rewrite !elem_of_list_to_set, elem_of_app.
      tauto. }
    destruct (iteration G 0 ltac:(lia) U Hne Hsub) as (v & (i & Hi & Hmax & Hfirst) & Hpos & Hbest).
    rewrite gain_zero in Hpos. case_decide as HvU; [|lia].
    assert (nodes G !! length l1 = Some x) as Hx.
    { rewrite Hnodes. by rewrite lookup_app_r, Nat.sub_diag by lia. }
    assert (v = x) as ->.
    { destruct (decide (v = x)) as [|Hvx]; [done|]. exfalso.
      assert (length l1 < i)%nat as Hlater.
      { unfold U in HvU. apply elem_of_list_to_set, elem_of_cons in HvU as [?|Hv2]; [done|].
        apply list_elem_of_lookup in Hv2 as [j Hj].
        assert (nodes G !! (length l1 + S j)%nat = Some v) as Hi'.
        { rewrite Hnodes, lookup_app_r by lia.
          replace (length l1 + S j - length l1)%nat with (S j) by lia. done. }
        assert (i = (length l1 + S j)%nat) by (by eapply NoDup_lookup). lia. }
      specialize (Hfirst (length l1) x Hlater Hx).
      rewrite !gain_zero in Hfirst. rewrite !decide_True in Hfirst by done. lia. }
    rewrite reach_zero in Hbest.
    assert (x ∉ l2) as Hfresh.
    { rewrite Hnodes in Hnd. apply NoDup_app in Hnd as (_ & _ & Hnd).
      by apply NoDup_cons in Hnd as [? _]. }
    assert (U ∖ ({[x]} ∩ U) = list_to_set l2) as HU'.
    { unfold U. apply set_eq. intros y.
      rewrite elem_of_difference, elem_of_intersection, elem_of_singleton,
        !elem_of_list_to_set, elem_of_cons.
      split; [tauto|]. intros Hy. split; [tauto|]. intros [-> _]. done. }
    destruct fuel as [|fuel]; [simpl in Hfuel; lia|].
    cbn [while_uncovered]. rewrite decide_False by done. rewrite Hbest, bind_Ok.
    cbn [fst snd]. rewrite HU'.
    rewrite (IH (l1 ++ [x])); [|by rewrite <- app_assoc|done|simpl in Hfuel; lia].
    by rewrite <- app_assoc.
Qed.

(** X9: with radius 0 every node is its own center: on a graph whose
    node list has no repetition (as that of every networkx graph) the
    placement returns all the nodes, in the order of [G.nodes()]. *)
Theorem radius_zero_every_node_a_center (G : Graph) (fuel : nat) :
  NoDup (nodes G) → (length (nodes G) ≤ fuel)%nat →
  greedy_center_placement fuel G 0 = Ok (Some <$> nodes G).
Proof.
  intros Hnd Hfuel. unfold greedy_center_placement.
  by rewrite (radius_zero_loop G (nodes G) []).
Qed.

Lemma radius_zero_every_node_a_center_witness :
  greedy_center_placement 11 tree11 0 = Ok (Some <$> nodes tree11).
Proof.
  apply (radius_zero_every_node_a_center tree11 11).
  - apply (bool_decide_unpack _). vm_compute. exact I.
  - apply (bool_decide_unpack _). vm_compute. exact I.
Defined.

(** ** The drawing stage: node sizes *)









(** ** The drawing stage: colors *)

Lemma paint_nodes_lookup col l : ∀ nc n,
  paint_nodes col l nc !! n = if decide (n ∈ l) then Some col else nc !! n.
Proof.
  unfold paint_nodes. induction l as [|x l IH]; intros nc n.
  - case_decide as Hn; [by apply elem_of_nil in Hn|done].
  - cbn [foldl]. rewrite IH.
    destruct (decide (x = n)) as [->|Hne];
      [rewrite lookup_insert_eq|rewrite lookup_insert_ne by done];
      repeat case_decide; try done; exfalso; set_solver.
Qed.

Lemma next_color_in_palette k : next_color k ∈ color_palette.
Proof.
  unfold next_color. apply list_elem_of_lookup_total_2.
  apply Nat.mod_upper_bound. simpl. lia.
Qed.

Lemma blue_not_in_palette : blue ∉ color_palette.
Proof. apply (bool_decide_unpack _). vm_compute. exact I. Qed.

Section painting.
Context (ccm : gmap Z (list Z)).

Lemma paint_center_known st c l :
  ccm !! c = Some l →
  paint_center ccm st (Some c)
  = Ok (mkPainting (S (drawn st)) (<[c := next_color (drawn st)]> (center_colors st))
          (paint_nodes (next_color (drawn st)) l (node_colors st))).
Proof. intros Hc. unfold paint_center. simpl. by rewrite Hc. Qed.

(** The loop of lines 185-189 over distinct centers that all have an
    entry in the coverage map. *)
Lemma paint_centers (cs : list Z) :
  (∀ c, c ∈ cs → is_Some (ccm !! c)) → NoDup cs →
  ∃ st, for_each (paint_center ccm) (Some <$> cs) (mkPainting 0 ∅ ∅) = Ok st ∧
    drawn st = length cs ∧
    (∀ (k : nat) c, cs !! k = Some c → center_colors st !! c = Some (next_color k)) ∧
    (∀ n, is_Some (node_colors st !! n) ↔
          ∃ c l, c ∈ cs ∧ ccm !! c = Some l ∧ n ∈ l) ∧
    (∀ n col, node_colors st !! n = Some col →
       ∃ (k : nat) c l, cs !! k = Some c ∧ ccm !! c = Some l ∧ n ∈ l ∧
         col = next_color k ∧
         ∀ (k' : nat) c' l', (k < k')%nat → cs !! k' = Some c' →
           ccm !! c' = Some l' → n ∉ l').
Proof.
  induction cs as [|c cs IH] using rev_ind; intros Hkeys Hnd.
  - eexists. split; [done|]. simpl. split; [done|]. split; [by intros k c ?|].
    split.
    + intros n. rewrite lookup_empty. split; [by intros ?%is_Some_None|].
      by intros (c & l & ?%elem_of_nil & _).
    + intros n col. by rewrite lookup_empty.
  - apply NoDup_app in Hnd as (Hnd & Hfresh & _).
    destruct IH as (st & Hrun & Hdrawn & Hcc & Hdom & Hlast); [|done|].
    { intros c' Hc'. apply Hkeys. set_solver. }
    destruct (Hkeys c ltac:(set_solver)) as [l Hl].
    rewrite fmap_app. change (Some <$> [c]) with [Some c].
    rewrite for_each_snoc, Hrun, bind_Ok.
    rewrite (paint_center_known st c l Hl). eexists. split; [done|]. simpl.
    split; [rewrite length_app; simpl; lia|]. split; [|split].
    + intros k c' Hk. destruct (decide (k < length cs)%nat) as [Hlt|Hge].
      * rewrite lookup_app_l in Hk by done.
        rewrite lookup_insert_ne; [by apply Hcc|].
        intros <-. apply (Hfresh c); [by eapply list_elem_of_lookup_2|constructor].
      * rewrite lookup_app_r in Hk by lia.
        destruct (k - length cs)%nat as [|?] eqn:E; simpl in Hk; [|done].
        injection Hk as <-. rewrite lookup_insert_eq. do 2 f_equal. lia.
    + intros n. rewrite paint_nodes_lookup. destruct (decide (n ∈ l)) as [Hin|Hout].
      * split; [|eauto]. intros _. exists c, l. split; [set_solver|done].
      * rewrite Hdom. split.
        { intros (c' & l' & Hc' & Hl' & Hn). exists c', l'. split; [set_solver|done]. }
        intros (c' & l' & [Hc'| ->%list_elem_of_singleton]%elem_of_app & Hl' & Hn).
        { eauto. } { congruence. }
    + intros n col. rewrite paint_nodes_lookup. destruct (decide (n ∈ l)) as [Hin|Hout].
      * intros [= <-]. exists (length cs), c, l.
        split; [by rewrite lookup_app_r, Nat.sub_diag by lia|].
        split; [done|]. split; [done|]. split; [by rewrite Hdrawn|].
        intros k' c' l' Hk' Hc'. apply lookup_lt_Some in Hc'.
        rewrite length_app in Hc'. simpl in Hc'. lia.
      * intros Hcol. destruct (Hlast n col Hcol) as (k & c' & l' & Hk & Hl' & Hn & -> & Hlater).
        exists k, c', l'. split; [by apply lookup_app_l_Some|].
        split; [done|]. split; [done|]. split; [done|].
        intros k' c'' l'' Hk' Hc'' Hl''.
        destruct (decide (k' < length cs)%nat) as [Hlt|Hge].
        { rewrite lookup_app_l in Hc'' by done. by eapply Hlater. }
        rewrite lookup_app_r in Hc'' by lia.
        destruct (k' - length cs)%nat as [|?] eqn:E; simpl in Hc''; [|done].
        injection Hc'' as <-. congruence.
Qed.

(** A center without an entry in the coverage map, [None] included,
    stops the loop with [KeyError]. *)
Lemma paint_center_unknown st c :
  (∀ v, c = Some v → ccm !! v = None) → paint_center ccm st c = Raise KeyError.
Proof.
  intros Hc. unfold paint_center. destruct c as [v|]; [|done].
  by rewrite (Hc v).
Qed.
End painting.

Lemma node_color_list (nc : gmap Z string) (l : list Z) : ∀ acc,
  (∀ n, n ∈ l → ∃ col, nc !! n = Some col ∧ col ∈ color_palette) →
  ∃ cols,
    for_each (λ acc n, match nc !! n with
                       | Some col => Ok (acc ++ [col])
                       | None => Raise KeyError
                       end) l acc = Ok (acc ++ cols) ∧
    length cols = length l ∧ ∀ col, col ∈ cols → col ∈ color_palette.
Proof.
  induction l as [|n l IH]; intros acc Hl.
  - exists []. rewrite app_nil_r. split; [done|]. split; [done|].
    by intros col ?%elem_of_nil.
  - destruct (Hl n ltac:(constructor)) as (col & Hcol & Hpal).
    destruct (IH (acc ++ [col])) as (cols & Hrun & Hlen & Hall).
    { intros n' Hn'. apply Hl. by constructor. }
    exists (col :: cols). rewrite for_each_cons, Hcol, bind_Ok, Hrun.
    split; [by rewrite <- app_assoc|]. split; [simpl; lia|].
    intros col' [->|Hc]%elem_of_cons; auto.
Qed.

(** X11: in a run that reaches the summary (right count, radius at least
    0, total population not 0, enough iterations) the coloring of the
    drawing stage succeeds: every node has an entry in [node_colors], so
    the list of line 200 is built without [KeyError]; each of its N
    colors comes from the palette, never the blue of uncovered nodes; the
    k-th center (from 0) gets the k-th color of the cycle in
    [center_colors]; and a node's color is that of the last center, in
    selection order, whose reach set contains it. *)
Theorem every_node_gets_a_center_color
    (fuel : nat) (N : Z) (population_list : list Z) (X : Z) :
  Z.of_nat (length population_list) = N → 0 <= X →
  sum population_list ≠ 0 → (Z.to_nat N ≤ fuel)%nat →
  ∃ G r p cols,
    build_chain N population_list = Ok G ∧
    compute_centers fuel N population_list X = Summary r ∧
    colouring G (centers r) (center_coverage_map r) (uncovered_final r)
    = Ok (p, cols) ∧
    Z.of_nat (length cols) = N ∧
    (∀ col, col ∈ cols → col ∈ color_palette ∧ col ≠ blue) ∧
    (∀ (k : nat) c, centers r !! k = Some (Some c) →
       center_colors p !! c = Some (next_color k)) ∧
    (∀ n col, node_colors p !! n = Some col →
       ∃ (k : nat) c, centers r !! k = Some (Some c) ∧ n ∈ reach G c X ∧
         col = next_color k ∧
         ∀ (k' : nat) c', (k < k')%nat → centers r !! k' = Some (Some c') →
           n ∉ reach G c' X).
Proof.
  intros HN HX Hsum Hfuel.
  destruct (chain_report N population_list X HN)
    as (G & HG & Hnodes & Hreach & Hpop & Htotal).
  destruct (greedy_centers_fresh G X HX) as (new & Hrun & Heach).
  pose proof (each_adds_coverage_NoDup G X new Heach) as Hnd.
  assert (∀ c, c ∈ new → c ∈ nodes G) as Hin.
  { intros c [i Hi]%list_elem_of_lookup. by destruct (Heach i c Hi). }
  specialize (Hrun fuel ltac:(rewrite Hnodes, length_seqZ; lia)).
  destruct (chain_run N population_list X HN fuel HX Hfuel)
    as (G' & cs & m & HG' & Hcs & Hcov & Hpopall).
  assert (G' = G) as -> by congruence.
  assert (cs = Some <$> new) as -> by congruence.
  pose proof Hcov as Hcov'. unfold coverage_groups in Hcov'.
  apply record_centers_inv in Hcov' as (new' & Heq & _ & Hall & Hmap & _).
  apply (inj (fmap Some)) in Heq as <-.
  assert (placement fuel N population_list X
          = Ok (mkResult (Some <$> new) m (list_to_set (nodes G))
                  (list_to_set (nodes G) ∖ list_to_set (nodes G))
                  (sum population_list) (sum population_list)
                  (inject_Z (sum population_list) / inject_Z (sum population_list)
                   * 100)%Q)) as Hplace.
  { rewrite (placement_stages _ _ _ _ _ _ _ HG Hcs Hcov).
    unfold statistics. cbn [fst snd]. rewrite Hpopall, bind_Ok.
    unfold true_div. rewrite decide_False by done. by rewrite bind_Ok. }
  destruct (paint_centers m new) as (st & Hpaint & Hdrawn & Hcc & Hdom & Hlast);
    [|done|].
  { intros c Hc. rewrite (Hmap c Hc). eauto. }
  assert (∀ c l n, c ∈ new → m !! c = Some l → (n ∈ l ↔ n ∈ reach G c X)) as Hlist.
  { intros c l n Hc Hl. rewrite (Hmap c Hc) in Hl. injection Hl as <-.
    apply sorted_elem_of. }
  assert (list_to_set (nodes G) ∖ list_to_set (nodes G) = (∅ : gset Z)) as Hunc
    by set_solver.
  assert (∀ nc : gmap Z string, paint_nodes blue (elements (∅ : gset Z)) nc = nc)
    as Hblue by (intros nc; by rewrite elements_empty).
  destruct (node_color_list (node_colors st) (nodes G) []) as (cols & Hcols & Hlen & Hpal).
  { intros n Hn.
    assert (is_Some (node_colors st !! n)) as [col Hcol].
    { apply Hdom. assert (n ∈ covered_by G X new) as Hcovd.
      { rewrite union_empty_l_L in Hall. rewrite <- Hall. by apply elem_of_list_to_set. }
      unfold covered_by in Hcovd. apply elem_of_union_list in Hcovd as (s & Hs & Hns).
      apply list_elem_of_fmap in Hs as (c & -> & Hc).
      exists c, (sorted (reach G c X)). split; [done|]. split; [by apply Hmap|].
      by apply sorted_elem_of. }
    exists col. split; [done|].
    destruct (Hlast n col Hcol) as (k & _ & _ & _ & _ & _ & -> & _).
    apply next_color_in_palette. }
  eexists G, _, _, cols. split; [done|]. split.
  { apply compute_centers_Summary. split; [done|exact Hplace]. }
  cbn [centers center_coverage_map uncovered_final].
  split.
  { unfold colouring. rewrite Hpaint, bind_Ok, Hunc, Hblue. simpl in Hcols.
    rewrite Hcols, bind_Ok. reflexivity. }
  cbn [center_colors node_colors]. split; [rewrite Hlen, Hnodes, length_seqZ; lia|].
  split; [|split].
  - intros col Hcol. split; [by apply Hpal|].
    intros ->. by apply blue_not_in_palette, Hpal.
  - intros k c Hk. apply Hcc. rewrite list_lookup_fmap in Hk.
    destruct (new !! k) as [c'|]; simpl in Hk; congruence.
  - intros n col Hcol.
    destruct (Hlast n col Hcol) as (k & c & l & Hk & Hl & Hn & -> & Hlater).
    assert (c ∈ new) as Hc by (by eapply list_elem_of_lookup_2).
    exists k, c. split; [by rewrite list_lookup_fmap, Hk|].
    split; [by apply (Hlist c l n Hc Hl)|]. split; [done|].
    intros k' c' Hk' Hc'. rewrite list_lookup_fmap in Hc'.
    destruct (new !! k') as [c''|] eqn:E; simpl in Hc'; [|done].
    injection Hc' as ->.
    assert (c' ∈ new) as Hc'n by (by eapply list_elem_of_lookup_2).
    intros Hreach'. eapply (Hlater k' c' _ Hk' E (Hmap c' Hc'n)).
    by apply sorted_elem_of.
Qed.

Lemma every_node_gets_a_center_color_witness :
  ∃ G r p cols,
    build_chain 4 [1; 2; 3; 4] = Ok G ∧
    compute_centers 4 4 [1; 2; 3; 4] 1 = Summary r ∧
    colouring G (centers r) (center_coverage_map r) (uncovered_final r)
    = Ok (p, cols) ∧
    Z.of_nat (length cols) = 4 ∧
    (∀ col, col ∈ cols → col ∈ color_palette ∧ col ≠ blue) ∧
    (∀ (k : nat) c, centers r !! k = Some (Some c) →
       center_colors p !! c = Some (next_color k)) ∧
    (∀ n col, node_colors p !! n = Some col →
       ∃ (k : nat) c, centers r !! k = Some (Some c) ∧ n ∈ reach G c 1 ∧
         col = next_color k ∧
         ∀ (k' : nat) c', (k < k')%nat → centers r !! k' = Some (Some c') →
           n ∉ reach G c' 1).
Proof.
  apply (every_node_gets_a_center_color 4 4 [1; 2; 3; 4] 1);
    [reflexivity|lia| |lia].
  vm_compute. discriminate.
Defined.

(** ** Everything the handler can show *)

(** The scan of the nodes never raises. *)
Lemma while_uncovered_no_raise G X fuel : ∀ U cs e,
  while_uncovered fuel G X U cs ≠ Raise e.
Proof.
  induction fuel as [|fuel IH]; intros U cs e; simpl.
  - by destruct (decide (U = ∅)).
  - destruct (decide (U = ∅)); [done|].
    destruct (best_choice_scanned G X U) as (best & -> & _). simpl. apply IH.
Qed.

(** Once the placement has returned, the rest of the computation is
    settled up to the division. *)
Lemma chain_after_greedy fuel N population_list X G cs :
  Z.of_nat (length population_list) = N →
  build_chain N population_list = Ok G →
  greedy_center_placement fuel G X = Ok cs →
  (0 <= X ∨ N = 0) ∧
  ∃ m, coverage_groups G X cs = Ok (m, list_to_set (nodes G)) ∧
       population_of G (list_to_set (nodes G)) = Ok (sum population_list).
Proof.
  intros HN HG Hcs.
  destruct (chain_report N population_list X HN)
    as (G' & HG' & Hnodes & Hreach & Hpop & Htotal).
  assert (G' = G) as -> by congruence.
  assert (population_of G (list_to_set (nodes G)) = Ok (sum population_list)) as Hall.
  { rewrite Hpop by done. by rewrite Htotal. }
  destruct (Z_lt_le_dec X 0) as [Hneg|HX].
  - destruct (decide (nodes G = [])) as [Hnil|Hne].
    + assert (cs = []) as ->.
      { unfold greedy_center_placement in Hcs. rewrite Hnil in Hcs.
        destruct fuel; simpl in Hcs; rewrite decide_True in Hcs by done; congruence. }
      split; [right; rewrite Hnodes in Hnil; apply (f_equal length) in Hnil;
              rewrite length_seqZ in Hnil; simpl in Hnil; lia|].
      exists ∅. split; [|done]. unfold coverage_groups. simpl. rewrite Hnil.
      by rewrite list_to_set_nil.
    + exfalso. unfold greedy_center_placement in Hcs.
      rewrite while_uncovered_negative in Hcs; [done|done|].
      destruct (nodes G); [done|set_solver].
  - split; [by left|].
    destruct (greedy_ends G X HX) as (new & _ & Hin & Hcov & Hrun).
    assert (cs = Some <$> new) as ->.
    { specialize (Hrun (fuel `max` length (nodes G))%nat ltac:(lia)).
      apply (while_uncovered_more_fuel G X fuel (fuel `max` length (nodes G))%nat)
        in Hcs; [|lia|done].
      unfold greedy_center_placement in Hrun. congruence. }
    destruct (record_centers_nodes G X new ∅ ∅ Hin) as [m Hm].
    exists m. split; [|done]. unfold coverage_groups. rewrite Hm. do 2 f_equal.
    apply set_eq. intros n. split; [|set_solver].
    rewrite elem_of_union, elem_of_list_to_set. intros [?%elem_of_empty|Hn]; [done|].
    unfold covered_by in Hn. apply elem_of_union_list in Hn as (s & Hs & Hn).
    apply list_elem_of_fmap in Hs as (c & -> & Hc). apply Hin in Hc.
    rewrite Hnodes, elem_of_seqZ in *. apply Hreach in Hn; lia.
Qed.

(** X12: what the handler can show, for a parsed population list.  It
    shows the count message exactly when the count is wrong.  The only
    exception the computation hands to the [except] clause is
    [ZeroDivisionError], and only when the populations sum to 0: never
    [IndexError], [KeyError] or [NodeNotFound].  A summary appears only
    for a non-empty chain, a radius of at least 0 and a non-zero sum, and
    then always with every node covered and a coverage of 100 percent.
    The loop is cut off by the iteration budget only for a negative
    radius or a budget below N. *)
Theorem handler_outcomes (fuel : nat) (N : Z) (population_list : list Z) (X : Z) :
  (compute_centers fuel N population_list X = CountMismatch ↔
   Z.of_nat (length population_list) ≠ N) ∧
  (∀ e, compute_centers fuel N population_list X = InvalidInput e →
     e = ZeroDivisionError ∧ sum population_list = 0) ∧
  (∀ r, compute_centers fuel N population_list X = Summary r →
     sum population_list ≠ 0 ∧ 0 <= X ∧ 1 <= N ∧
     all_covered r = list_to_set (seqZ 1 N) ∧ uncovered_final r = ∅ ∧
     (coverage_percent r == 100)%Q) ∧
  (compute_centers fuel N population_list X = Unfinished →
     X < 0 ∨ (fuel < Z.to_nat N)%nat).
Proof.
  unfold compute_centers.
  destruct (decide (Z.of_nat (length population_list) ≠ N)) as [Hne|HN].
  { split; [done|]. split; [done|]. split; done. }
  apply dec_stable in HN. split; [|].
  { split; [|done]. by destruct (placement _ _ _ _). }
  destruct (build_chain_shape N population_list HN) as (G & HG & Hnodes & _).
  destruct (greedy_center_placement fuel G X) as [cs|e|] eqn:Hcs.
  - destruct (chain_after_greedy fuel N population_list X G cs HN HG Hcs)
      as (Hdom & m & Hcov & Hpop).
    rewrite (placement_stages _ _ _ _ _ _ _ HG Hcs Hcov).
    unfold statistics. cbn [fst snd]. rewrite Hpop, bind_Ok. unfold true_div.
    destruct (decide (sum population_list = 0)) as [Hzero|Hsum]; simpl.
    + split; [by intros e [= <-]|]. split; done.
    + split; [done|]. split; [|done]. intros r [= <-]. simpl.
      assert (N ≠ 0) as HN0.
      { intros ->. destruct population_list; [done|simpl in HN; lia]. }
      split; [done|]. split; [lia|]. split; [lia|].
      split; [by rewrite Hnodes|]. split; [set_solver|].
      unfold Qdiv. rewrite Qmult_inv_r; [reflexivity|].
      unfold Qeq. simpl. lia.
  - by apply while_uncovered_no_raise in Hcs.
  - unfold placement. rewrite HG, bind_Ok, Hcs. simpl.
    split; [done|]. split; [done|]. intros _.
    destruct (Z_lt_le_dec X 0) as [?|HX]; [by left|]. right.
    destruct (le_lt_dec (Z.to_nat N) fuel) as [Hfuel|?]; [|done].
    destruct (greedy_ends G X HX) as (new & _ & _ & _ & Hrun).
    rewrite Hrun in Hcs; [done|]. rewrite Hnodes, length_seqZ. done.
Qed.

(** ** The coverage lists on a chain *)

Lemma seqZ_sorted m (n : nat) : StronglySorted Z.le (seqZ m (Z.of_nat n)).
Proof.
  revert m. induction n as [|n IH]; intros m.
  - simpl. constructor.
  - rewrite seqZ_cons by lia. constructor.
    + replace (Z.pred (Z.of_nat (S n))) with (Z.of_nat n) by lia. apply IH.
    + apply Forall_seqZ. intros. lia.
Qed.

Lemma sorted_span lo hi : sorted (span lo hi) = seqZ lo (hi - lo + 1).
Proof.
  apply (StronglySorted_unique Z.le).
  - apply (StronglySorted_merge_sort Z.le).
  - destruct (decide (0 <= hi - lo + 1)) as [Hlen|Hneg].
    + rewrite <- (Z2Nat.id (hi - lo + 1)) by done. apply seqZ_sorted.
    + rewrite seqZ_nil by lia. constructor.
  - unfold sorted, span. rewrite merge_sort_Permutation.
    apply elements_list_to_set, NoDup_seqZ.
Qed.

(** X13: in every summary the list reported for a center [c] is the block
    of consecutive locations from [max 1 (c - X)] to [min N (c + X)], in
    ascending order; it contains [c] itself. *)
Theorem coverage_lists_are_blocks
    (fuel : nat) (N : Z) (population_list : list Z) (X : Z)
    (r : PlacementResult) (c : Z) :
  compute_centers fuel N population_list X = Summary r →
  Some c ∈ centers r →
  1 <= c <= N ∧
  center_coverage_map r !! c
  = Some (seqZ (Z.max 1 (c - X)) (Z.min N (c + X) - Z.max 1 (c - X) + 1)) ∧
  c ∈ seqZ (Z.max 1 (c - X)) (Z.min N (c + X) - Z.max 1 (c - X) + 1).
Proof.
  intros [HN Hr]%compute_centers_Summary Hc.
  apply placement_inv in Hr as (G & cs & [m covd] & HG & Hcs & Hcov & Hr).
  destruct (chain_after_greedy fuel N population_list X G cs HN HG Hcs)
    as (Hdom & _).
  destruct (chain_report N population_list X HN) as (G' & HG' & Hnodes & Hreach & _).
  assert (G' = G) as -> by congruence.
  unfold statistics in Hr.
  destruct (population_of G _) as [cp| |]; [rewrite bind_Ok in Hr|done|done].
  destruct (true_div _ _) as [q| |]; [rewrite bind_Ok in Hr|done|done].
  injection Hr as <-. cbn [centers center_coverage_map fst] in *.
  unfold coverage_groups in Hcov.
  apply record_centers_inv in Hcov as (cs' & -> & Hin & _ & Hmap & _).
  apply list_elem_of_fmap in Hc as (c' & [= <-] & Hc).
  pose proof (Hin c Hc) as Hrange. rewrite Hnodes, elem_of_seqZ in Hrange.
  assert (0 <= X) as HX.
  { destruct Hdom as [?| ->]; [done|lia]. }
  assert (reach G c X = span (Z.max 1 (c - X)) (Z.min N (c + X))) as Hblock.
  { apply set_eq. intros n. rewrite elem_of_span, (Hreach c n ltac:(lia)). lia. }
  split; [lia|]. split.
  - rewrite (Hmap c Hc), Hblock. by rewrite sorted_span.
  - apply elem_of_seqZ. lia.
Qed.

Lemma coverage_lists_are_blocks_witness :
  1 <= 3 <= 4 ∧
  center_coverage_map summary_of_four !! 3
  = Some (seqZ (Z.max 1 (3 - 1)) (Z.min 4 (3 + 1) - Z.max 1 (3 - 1) + 1)) ∧
  3 ∈ seqZ (Z.max 1 (3 - 1)) (Z.min 4 (3 + 1) - Z.max 1 (3 - 1) + 1).
Proof.
  apply (coverage_lists_are_blocks 4 4 [1; 2; 3; 4] 1 summary_of_four 3).
  - vm_compute. reflexivity.
  - apply (bool_decide_unpack _). vm_compute. exact I.
Defined.
